(** * taskcluster-lib-loader: the component loader of [src/lib/loader.js]

    A shallow embedding of [validateComponent], [renderGraph], [loader] and
    the [load] closure it returns, followed by the properties of the
    specification that were checked against it and by further properties
    of the code.

    JavaScript objects used as dictionaries are association lists in
    enumeration order.  A property read [o[k]] consults the own properties
    first and then the members every plain object inherits from
    [Object.prototype]; the source uses such reads as membership tests, so
    the inherited members are part of the model.  lodash walks an object
    that has a numeric [length] member by index and not by key, and
    [Promise.resolve] follows a thenable; both are part of the model.
    Exceptions are an explicit [completion]; the promises a call creates are
    kept in the order of their creation and are settled by a separate
    pass. *)

From Stdlib Require Import List String Ascii Bool ZArith Arith Lia.
From Stdlib Require DecimalString DecimalNat DecimalFacts.
From Stdlib Require Import Relations.Relation_Operators Relations.Operators_Properties.
Import ListNotations.
Local Open Scope string_scope.
Local Open Scope list_scope.
Set Warnings "-register-all".
Arguments String.eqb : simpl never.

(** ** JavaScript values *)

(** Callables: the setup functions a directory brings along are opaque and
    named by a number, the members of [Object.prototype] are native, and the
    loader itself creates one more function, the setup of its graphviz
    component (line 253). *)
Inductive func : Type :=
| UserFn (id : nat)
| NativeFn (name : string)
| GraphvizSetup.

(** Numbers are kept to the integers: the loader only asks for their type
    and their truthiness. *)
Inductive value : Type :=
| VUndefined
| VNull
| VBool (b : bool)
| VNum (n : Z)
| VStr (s : string)
| VFun (f : func)
| VArr (items : list value)
| VObj (props : list (string * value)).

(** A plain object: own enumerable properties in enumeration order.  The
    keys of an object are distinct; an own property named [__proto__] is
    outside the model. *)
Definition obj : Type := list (string * value).

Inductive jstype : Type :=
| TUndefined | TObject | TBoolean | TNumber | TString | TFunction.

Definition typeof (v : value) : jstype :=
  match v with
  | VUndefined => TUndefined
  | VNull => TObject
  | VBool _ => TBoolean
  | VNum _ => TNumber
  | VStr _ => TString
  | VFun _ => TFunction
  | VArr _ => TObject
  | VObj _ => TObject
  end.

Definition jstype_eqb (a b : jstype) : bool :=
  match a, b with
  | TUndefined, TUndefined | TObject, TObject | TBoolean, TBoolean
  | TNumber, TNumber | TString, TString | TFunction, TFunction => true
  | _, _ => false
  end.

(** ToBoolean. *)
Definition truthy (v : value) : bool :=
  match v with
  | VUndefined | VNull => false
  | VBool b => b
  | VNum n => negb (Z.eqb n 0)
  | VStr s => negb (String.eqb s EmptyString)
  | VFun _ | VArr _ | VObj _ => true
  end.

Definition is_nullish (v : value) : bool :=
  match v with
  | VUndefined | VNull => true
  | _ => false
  end.

(** [v instanceof Function]. *)
Definition is_function (v : value) : bool :=
  match v with VFun _ => true | _ => false end.

Definition is_string (v : value) : bool :=
  match v with VStr _ => true | _ => false end.

(** ** Objects as dictionaries *)

Section Dictionary.
Context {A : Type}.

(** The own property [k], when there is one. *)
Fixpoint own (o : list (string * A)) (k : string) : option A :=
  match o with
  | [] => None
  | (k', v) :: rest => if String.eqb k' k then Some v else own rest k
  end.

(** The assignment [o[k] = v]: an existing property keeps its place, a
    new one is enumerated last. *)
Fixpoint assign (o : list (string * A)) (k : string) (v : A) : list (string * A) :=
  match o with
  | [] => [(k, v)]
  | (k', v') :: rest =>
      if String.eqb k' k then (k', v) :: rest else (k', v') :: assign rest k v
  end.

Definition keys (o : list (string * A)) : list string := map fst o.
End Dictionary.

(** The members a plain object inherits from [Object.prototype]. *)
Definition object_prototype : list string :=
  [ "constructor"; "hasOwnProperty"; "isPrototypeOf"; "propertyIsEnumerable";
    "toLocaleString"; "toString"; "valueOf"; "__defineGetter__";
    "__defineSetter__"; "__lookupGetter__"; "__lookupSetter__"; "__proto__" ].
Arguments object_prototype : simpl never.

(** line 13: [includes(a, v)], on arrays of strings. *)
Definition includes (a : list string) (v : string) : bool :=
  existsb (String.eqb v) a.

(** What a read of [k] finds on the prototype: a native function, or the
    prototype object itself for [__proto__]. *)
Definition inherited (k : string) : option value :=
  if String.eqb k "__proto__" then Some (VObj [])
  else if includes object_prototype k then Some (VFun (NativeFn k))
  else None.

(** The read [o[k]] on a plain object. *)
Definition get (o : obj) (k : string) : value :=
  match own o k with
  | Some v => v
  | None =>
      match inherited k with
      | Some v => v
      | None => VUndefined
      end
  end.

(** The read [v.k] on any value: [None] is the TypeError of reading a
    property of [null] or [undefined].  Of arrays, functions and boxed
    primitives only the members shared with [Object.prototype] are modelled;
    the loader reads [setup] and [requires], which none of them defines. *)
Definition prop (v : value) (k : string) : option value :=
  match v with
  | VUndefined | VNull => None
  | VObj o => Some (get o k)
  | _ => Some (match inherited k with Some m => m | None => VUndefined end)
  end.

(** The property key of the array index [i]: its decimal numeral. *)
Definition index_key (i : nat) : string :=
  DecimalString.NilEmpty.string_of_uint (Nat.to_uint i).

(** A numeral starts with a digit, which no inherited name does. *)
Definition starts_with_digit (k : string) : bool :=
  match k with
  | String c _ => Nat.leb 48 (nat_of_ascii c) && Nat.leb (nat_of_ascii c) 57
  | EmptyString => false
  end.

(** lodash's test for a collection it walks by index ([isLength] of its
    [length] member): a number that is an integer from 0 to
    [Number.MAX_SAFE_INTEGER].  [Some n] is that length. *)
Definition max_safe_integer : Z := 9007199254740991.

Definition array_like (o : obj) : option nat :=
  match get o "length" with
  | VNum n =>
      if (0 <=? n)%Z && (n <=? max_safe_integer)%Z then Some (Z.to_nat n) else None
  | _ => None
  end.

(** What [_.forEach(o, f)] hands to [f], in order: the own properties of
    [o], or, when [o] has such a [length], the members [o[0]] to
    [o[length - 1]] with their index (whatever other properties [o] has are
    then not visited). *)
Definition visited (o : obj) : list (string * value) :=
  match array_like o with
  | Some n => map (fun i => (index_key i, get o (index_key i))) (seq 0 n)
  | None => o
  end.

(** [_.clone(o)]: a fresh object with the same own properties (the copy is
    shallow; at the level of contents it is the identity, the store below
    gives it its own location). *)
Definition clone (o : obj) : obj := o.

(** [_.intersection(a, b)]. *)
Definition intersection (a b : list string) : list string :=
  filter (includes b) a.

(** ** Errors and completions *)

(** Why [validateComponent] rejects a definition: its four messages. *)
Inductive invalid : Type :=
| MustBeObject          (* must be an object, null or undefined *)
| MissingSetup          (* is missing setup function *)
| RequiresNotArray      (* if present, requires must be array *)
| RequiresNotStrings.   (* all items in requires must be strings *)

(** What the loader throws.  The names are the specification's; the source
    raises [Error] with a message, an [assume] assertion, or, where it reads
    a property of [null] or [undefined], the runtime's TypeError. *)
Inductive error : Type :=
| VirtualNameCollision                                (* line 182 *)
| InvalidComponent (name : string) (why : invalid)    (* lines 25-40 *)
| UndefinedComponent (dep : string)                   (* line 197 *)
| CyclicDependency                                    (* line 246 *)
| ReservedName                                        (* line 250 *)
| MissingVirtualBinding (vComp : string)              (* line 273 *)
| TypeError (reading : string).

Inductive completion (A : Type) : Type :=
| Normal (a : A)
| Throw (e : error).
Arguments Normal {A} a.
Arguments Throw {A} e.

Definition bind {A B : Type} (c : completion A) (k : A -> completion B) : completion B :=
  match c with
  | Normal a => k a
  | Throw e => Throw e
  end.

Notation "x <- c ;; k" := (bind c (fun x => k))
  (at level 61, c at next level, right associativity).
Notation "c ;;; k" := (bind c (fun _ => k))
  (at level 61, right associativity).

(** Statement-level helper: [if (cond) throw e]. *)
Definition throw_if (cond : bool) (e : error) : completion unit :=
  if cond then Throw e else Normal tt.

(** A loop whose body may throw, [_.forEach(o, f)] over what it visits of
    [o] and [for ... of] over an array: the body runs on each element in
    order and the first exception ends the loop. *)
Fixpoint forEach {A : Type} (f : A -> completion unit) (l : list A) : completion unit :=
  match l with
  | [] => Normal tt
  | a :: rest => f a ;;; forEach f rest
  end.

(** ** validateComponent (lines 21-43) *)

Definition validateComponent (def : value) (name : string) : completion unit :=
  throw_if (negb (jstype_eqb (typeof def) TObject)
            && negb (match def with VNull => true | _ => false end)
            && negb (match def with VUndefined => true | _ => false end))
           (InvalidComponent name MustBeObject) ;;;
  match prop def "setup" with
  | None => Throw (TypeError "setup")
  | Some setup =>
      throw_if (negb (is_function setup)) (InvalidComponent name MissingSetup) ;;;
      match prop def "requires" with
      | None => Throw (TypeError "requires")
      | Some requires =>
          if truthy requires then
            match requires with
            | VArr items =>
                throw_if (negb (forallb is_string items))
                         (InvalidComponent name RequiresNotStrings)
            | _ => Throw (InvalidComponent name RequiresNotArray)
            end
          else Normal tt
      end
  end.

(** [def.requires || []], as the loops of the source iterate it.  [None] is
    the TypeError of reading [requires] of a missing definition.  On a
    definition that passed [validateComponent] the property is falsy or an
    array of strings.  The loops of the constructor meet only such
    definitions; [load] and [renderGraph] can meet another one only in a
    directory with a numeric [length], whose entries the constructor does
    not visit, and what is proved below of the entries they read is stated
    for directories without one. *)
Definition names_of (requires : value) : list string :=
  match requires with
  | VArr items =>
      flat_map (fun v => match v with VStr s => [s] | _ => [] end) items
  | _ => []
  end.

Definition requires_of (def : value) : option (list string) :=
  match prop def "requires" with
  | None => None
  | Some requires => Some (if truthy requires then names_of requires else [])
  end.

Definition requires_or_throw (def : value) : completion (list string) :=
  match requires_of def with
  | None => Throw (TypeError "requires")
  | Some deps => Normal deps
  end.

(** ** TopoSort *)

Module TopoSort.

(** Modelled from the spec: the [topo-sort] package ([new TopoSort()],
    [add], [sort], lines 217-246) is not part of the sources.  The
    specification asks of it a dependency graph built from the [add]
    calls and a deterministic topological ordering of its nodes, failing
    when a cycle leaves none.  The sort below emits, again and again, the
    first node all of whose dependencies are already emitted. *)
Definition t : Type := list (string * list string).

Definition empty : t := [].

Definition add (ts : t) (name : string) (deps : list string) : t :=
  ts ++ [(name, deps)].

Definition deps_of (ts : t) (n : string) : list string :=
  flat_map (fun e => if String.eqb (fst e) n then snd e else []) ts.

Definition nodes (ts : t) : list string :=
  nodup string_dec (flat_map (fun e => fst e :: snd e) ts).

Definition ready (ts : t) (done : list string) (n : string) : bool :=
  forallb (includes done) (deps_of ts n).

(** [done] holds the emitted nodes, last emitted first. *)
Fixpoint sort_loop (fuel : nat) (ts : t) (pending done : list string)
  : option (list string) :=
  match pending with
  | [] => Some done
  | _ :: _ =>
      match fuel with
      | O => None
      | S fuel' =>
          match find (ready ts done) pending with
          | None => None
          | Some n => sort_loop fuel' ts (remove string_dec n pending) (n :: done)
          end
      end
  end.

(** [None] stands for the exception of a cyclic graph.  Dependents come
    before their dependencies in the result. *)
Definition sort (ts : t) : option (list string) :=
  sort_loop (List.length (nodes ts)) ts (nodes ts) [].

End TopoSort.

(** ** renderGraph (lines 49-105) *)

Definition quote : string := String (ascii_of_nat 34) EmptyString.
Definition newline : string := String (ascii_of_nat 10) EmptyString.

Definition join (sep : string) (lines : list string) : string :=
  match lines with
  | [] => EmptyString
  | l :: rest => fold_left (fun acc s => (acc ++ sep ++ s)%string) rest l
  end.

(** The lines pushed for one component; reading [requires] of a component
    without a definition throws. *)
Definition render_component (componentDirectory : obj) (component : string)
  : completion (list string) :=
  let def := get componentDirectory component in
  deps <- requires_or_throw def ;;
  Normal (("  " ++ quote ++ component ++ quote)%string
            :: map (fun dep => ("  " ++ quote ++ component ++ quote ++ " -> "
                                  ++ quote ++ dep ++ quote ++ " [dir=back]")%string) deps).

Fixpoint render_components (componentDirectory : obj) (sortedComponents : list string)
  : completion (list string) :=
  match sortedComponents with
  | [] => Normal []
  | component :: rest =>
      here <- render_component componentDirectory component ;;
      below <- render_components componentDirectory rest ;;
      Normal (here ++ below)
  end.

Definition renderGraph (componentDirectory : obj) (sortedComponents : list string)
  : completion string :=
  body <- render_components componentDirectory sortedComponents ;;
  Normal (join newline
            ([ "// This graph shows all dependencies for this loader.";
               "// You might find http://www.webgraphviz.com/ useful!";
               EmptyString;
               "digraph G {" ] ++ body ++ [ "}" ])).

(** ** loader (lines 177-256) *)

(** What the returned closure captures. *)
Record Loader : Type := {
  componentDirectory : obj;
  virtualComponents : list string;
  topoSorted : list string
}.

(** lines 193-199: every required name is a truthy member of the directory
    or a virtual component. *)
Definition check_requires (componentDirectory : obj) (virtualComponents : list string)
  (deps : list string) : completion unit :=
  forEach (fun dep =>
             throw_if (negb (truthy (get componentDirectory dep))
                       && negb (includes virtualComponents dep))
                      (UndefinedComponent dep))
          deps.

(** lines 186-214: the body of the first [_.forEach]. *)
Definition check_entry (componentDirectory : obj) (virtualComponents : list string)
  (entry : string * value) : completion unit :=
  let (name, def) := entry in
  validateComponent def name ;;;
  deps <- requires_or_throw def ;;
  check_requires componentDirectory virtualComponents deps.

(** lines 217-244: the graph handed to the sort.  A name that the walk
    hands over as an index is taken as its property key. *)
Definition add_entry (tsort : TopoSort.t) (entry : string * value) : TopoSort.t :=
  TopoSort.add tsort (fst entry)
    (match requires_of (snd entry) with Some deps => deps | None => [] end).

Definition build_graph (componentDirectory : obj) (virtualComponents : list string)
  : TopoSort.t :=
  fold_left (fun tsort name => TopoSort.add tsort name [])
    virtualComponents
    (fold_left add_entry (visited componentDirectory) TopoSort.empty).

(** line 252: the component the loader adds. *)
Definition graphviz_def : value := VObj [("setup", VFun GraphvizSetup)].

Definition loader (componentDirectory0 : obj) (virtualComponents : list string)
  : completion Loader :=
  throw_if (negb (Nat.eqb (List.length (intersection (keys componentDirectory0)
                                                 virtualComponents)) 0))
           VirtualNameCollision ;;;
  let componentDirectory := clone componentDirectory0 in
  forEach (check_entry componentDirectory virtualComponents)
          (visited componentDirectory) ;;;
  match TopoSort.sort (build_graph componentDirectory virtualComponents) with
  | None => Throw CyclicDependency
  | Some topoSorted =>
      throw_if (truthy (get componentDirectory "graphviz")
                || includes virtualComponents "graphviz")
               ReservedName ;;;
      Normal {| componentDirectory := assign componentDirectory "graphviz" graphviz_def;
                virtualComponents := virtualComponents;
                topoSorted := topoSorted |}
  end.

(** ** The returned closure (lines 258-316) *)

(** What [load(target)] returns: a promise, named by the order of its
    creation within the call, or, where [loaded[target]] is a member
    inherited from [Object.prototype], that member itself. *)
Inductive handle : Type :=
| HPromise (id : nat)
| HValue (v : value).

(** The promises a call creates: [Promise.resolve(comp)] (line 294) and
    [Promise.all(deps).then(...)] (line 304), which keeps the definition
    whose setup it will call. *)
Inductive promise : Type :=
| Resolved (comp : value)
| AllThen (deps : list handle) (def : value).

(** [loaded], the memoization table of one call.  Every assignment
    [loaded[k] = p] of the source stores a promise it has just created, so
    the table is kept as the list of these assignments, oldest first: the
    [id]-th entry is the promise [id] with the name it was stored under, and
    [loaded[k]] is the latest promise stored under [k].  A promise that
    was overwritten in the table would still be in the list, and would
    still settle. *)
Definition table : Type := list (string * promise).

(** The position, counted from [i], of the latest entry under [k]. *)
Fixpoint latest_from (i : nat) (loaded : table) (k : string) : option nat :=
  match loaded with
  | [] => None
  | (k', _) :: rest =>
      match latest_from (S i) rest k with
      | Some j => Some j
      | None => if String.eqb k' k then Some i else None
      end
  end.

Definition latest (loaded : table) (k : string) : option nat :=
  latest_from 0 loaded k.

(** The read [loaded[target]], [None] when it is undefined. *)
Definition loaded_at (loaded : table) (target : string) : option handle :=
  match latest loaded target with
  | Some id => Some (HPromise id)
  | None =>
      match inherited target with
      | Some v => Some (HValue v)
      | None => None
      end
  end.

(** The assignment [loaded[target] = p] of a promise just created. *)
Definition store (loaded : table) (target : string) (p : promise) : table :=
  loaded ++ [(target, p)].

(** The synchronous part of a call either runs out of fuel ([None], which
    the theorems below exclude for a loader constructed from a directory of
    component definitions) or completes with the table as the call left
    it. *)
Definition sync (A : Type) : Type := option (completion A * table).

(** [requires.map(load)]: left to right, the table threaded through. *)
Fixpoint map_load (load : table -> string -> sync handle)
  (requires : list string) (loaded : table) : sync (list handle) :=
  match requires with
  | [] => Some (Normal [], loaded)
  | r :: rest =>
      match load loaded r with
      | None => None
      | Some (Throw e, loaded1) => Some (Throw e, loaded1)
      | Some (Normal h, loaded1) =>
          match map_load load rest loaded1 with
          | None => None
          | Some (Throw e, loaded2) => Some (Throw e, loaded2)
          | Some (Normal hs, loaded2) => Some (Normal (h :: hs), loaded2)
          end
      end
  end.

(** lines 298-313.  The recursion of the source is bounded by the depth of
    the dependency graph; the model counts it down with [fuel].  The fuel
    [run] gives it, one more than the length of the sorted list, is enough
    for every loader constructed from a directory of component definitions
    ([run_completes] below). *)
Fixpoint load (fuel : nat) (componentDirectory : obj) (loaded : table)
  (target : string) : sync handle :=
  match loaded_at loaded target with
  | Some h => Some (Normal h, loaded)
  | None =>
      match fuel with
      | O => None
      | S fuel' =>
          let def := get componentDirectory target in
          match requires_of def with
          | None => Some (Throw (TypeError "requires"), loaded)
          | Some requires =>
              match map_load (load fuel' componentDirectory) requires loaded with
              | None => None
              | Some (Throw e, loaded1) => Some (Throw e, loaded1)
              | Some (Normal deps, loaded1) =>
                  Some (Normal (HPromise (List.length loaded1)),
                        store loaded1 target (AllThen deps def))
              end
          end
      end
  end.

(** [assume(v).exists()]: neither [null] nor [undefined]. *)
Definition exists_ (v : value) : bool := negb (is_nullish v).

(** lines 292-295. *)
Definition seed (options : obj) : table :=
  fold_left (fun loaded e => store loaded (fst e) (Resolved (snd e)))
            (visited options) [].

(** The function [loader] returns, up to the point where it hands back
    [load(target)].  An omitted [options] is the empty object. *)
Definition run (L : Loader) (target : string) (options0 : obj) : sync handle :=
  let options := clone options0 in
  match find (fun vComp => negb (exists_ (get options vComp))) (virtualComponents L) with
  | Some vComp => Some (Throw (MissingVirtualBinding vComp), [])
  | None =>
      load (S (List.length (topoSorted L))) (componentDirectory L) (seed options) target
  end.

(** ** Settling the promises *)

(** Why a promise is rejected: a setup function threw (or returned a promise
    that rejects) with some value, or the loader's own callback threw. *)
Inductive failure : Type :=
| Raised (v : value)
| Internal (e : error).

(** What calling a setup function comes to, once the promise it may have
    returned is followed: a value, a failure, or nothing ever. *)
Inductive outcome : Type :=
| Returns (v : value)
| Fails (r : failure)
| Hangs.

Inductive pstate : Type :=
| Pending
| Fulfilled (v : value)
| Rejected (r : failure).

Inductive all_state : Type :=
| AllPending
| AllFulfilled (vs : list value)
| AllRejected (r : failure).

(** What one call caused: the final state of every promise it created, in
    the order of creation, and the setup functions that were invoked, each
    with the context it got. *)
Record settled : Type := {
  states : list pstate;
  invoked : list (string * obj)
}.

Definition state_of (o : outcome) : pstate :=
  match o with
  | Returns v => Fulfilled v
  | Fails r => Rejected r
  | Hangs => Pending
  end.

Fixpoint fulfilled_values (sts : list pstate) : option (list value) :=
  match sts with
  | [] => Some []
  | Fulfilled v :: rest =>
      match fulfilled_values rest with
      | Some vs => Some (v :: vs)
      | None => None
      end
  | _ :: _ => None
  end.

Definition rejections (sts : list pstate) : list failure :=
  flat_map (fun s => match s with Rejected r => [r] | _ => [] end) sts.

(** lines 305-308: the context object. *)
Definition context (requires : list string) (deps : list value) : obj :=
  fold_left (fun ctx e => assign ctx (fst e) (snd e)) (combine requires deps) [].

Definition handle_state (sts : list pstate) (h : handle) : pstate :=
  match h with
  | HValue v => Fulfilled v
  | HPromise id => nth id sts Pending
  end.

(** A thenable: an object with a callable [then] member.  [Promise.resolve]
    (line 294) does not fulfil with such a value but follows it. *)
Definition thenable (comp : value) : option (func * obj) :=
  match comp with
  | VObj o =>
      match get o "then" with
      | VFun f => Some (f, o)
      | _ => None
      end
  | _ => None
  end.

Section Settle.

(** The functions the caller brings along are opaque: [setup_of f o] is
    what calling [f] with the object [o] comes to, for a setup function
    called on its context (line 309) and for the [then] member of a
    thenable, called on the thenable, when a promise follows it (line 294).
    These functions are taken not to touch the loader's objects. *)
Variable setup_of : func -> obj -> outcome.

(** [Promise.all] rejects with the rejection that reaches it first, which
    depends on the timing of the setup functions: [race name rs] is the
    index, among the rejections [rs] of the dependencies of [name] in
    their listed order, of the one that wins. *)
Variable race : string -> list failure -> nat.

Variable L : Loader.

(** line 294: the state [Promise.resolve(comp)] ends in. *)
Definition resolve (comp : value) : pstate :=
  match thenable comp with
  | Some (f, o) => state_of (setup_of f o)
  | None => Fulfilled comp
  end.

(** line 309: [def.setup.call(null, ctx)]. *)
Definition call_setup (def : value) (ctx : obj) : outcome :=
  match prop def "setup" with
  | Some (VFun GraphvizSetup) =>
      match renderGraph (componentDirectory L) (topoSorted L) with
      | Normal dot => Returns (VStr dot)
      | Throw e => Fails (Internal e)
      end
  | Some (VFun f) => setup_of f ctx
  | _ => Fails (Internal (TypeError "call"))
  end.

Definition promise_all (name : string) (sts : list pstate) : all_state :=
  match rejections sts with
  | r :: rs => AllRejected (nth (race name (r :: rs)) (r :: rs) r)
  | [] =>
      match fulfilled_values sts with
      | Some vs => AllFulfilled vs
      | None => AllPending
      end
  end.

(** One promise, the promises it waits for being settled. *)
Definition settle_one (acc : settled) (entry : string * promise) : settled :=
  let (name, p) := entry in
  match p with
  | Resolved comp =>
      {| states := states acc ++ [resolve comp]; invoked := invoked acc |}
  | AllThen deps def =>
      match promise_all name (map (handle_state (states acc)) deps) with
      | AllPending =>
          {| states := states acc ++ [Pending]; invoked := invoked acc |}
      | AllRejected r =>
          {| states := states acc ++ [Rejected r]; invoked := invoked acc |}
      | AllFulfilled vs =>
          let ctx := context (match requires_of def with
                              | Some requires => requires
                              | None => []
                              end) vs in
          {| states := states acc ++ [state_of (call_setup def ctx)];
             invoked := invoked acc ++ [(name, ctx)] |}
      end
  end.

(** Every promise is created after the promises it waits for, so one pass
    in the order of creation settles them all.  The order of [invoked] is
    that order; the source fixes none between independent setups. *)
Definition settle (loaded : table) : settled :=
  fold_left settle_one loaded {| states := []; invoked := [] |}.



End Settle.

(** ** The store: which objects a call touches *)

Module Store.

(** The objects that exist, by location.  The caller's directory and
    options live here, and so do the copies the loader makes of them. *)
Definition loc : Type := nat.
Definition heap : Type := list obj.

Definition read (h : heap) (l : loc) : option obj := nth_error h l.

Definition alloc (h : heap) (o : obj) : loc * heap := (List.length h, h ++ [o]).

Fixpoint write (h : heap) (l : loc) (o : obj) : heap :=
  match h, l with
  | [], _ => []
  | _ :: rest, O => o :: rest
  | x :: rest, S l' => x :: write rest l' o
  end.

(** The closure keeps a reference to its own copy of the directory. *)
Record closure : Type := {
  directory : loc;
  virtuals : list string;
  sorted : list string
}.

Definition loader (h : heap) (componentDirectory0 : loc)
  (virtualComponents : list string) : completion closure * heap :=
  match read h componentDirectory0 with
  | None => (Throw (TypeError "componentDirectory"), h)
  | Some dir0 =>
      if negb (Nat.eqb (List.length (intersection (keys dir0) virtualComponents)) 0)
      then (Throw VirtualNameCollision, h)
      else
        (* line 183: componentDirectory = _.clone(componentDirectory) *)
        let (ref, h1) := alloc h (clone dir0) in
        match read h1 ref with
        | None => (Throw (TypeError "componentDirectory"), h1)
        | Some dir =>
            match forEach (check_entry dir virtualComponents) (visited dir) with
            | Throw e => (Throw e, h1)
            | Normal _ =>
                match TopoSort.sort (build_graph dir virtualComponents) with
                | None => (Throw CyclicDependency, h1)
                | Some topoSorted =>
                    if truthy (get dir "graphviz")
                       || includes virtualComponents "graphviz"
                    then (Throw ReservedName, h1)
                    else
                      (* line 252: componentDirectory.graphviz = {...} *)
                      (Normal {| directory := ref;
                                 virtuals := virtualComponents;
                                 sorted := topoSorted |},
                       write h1 ref (assign dir "graphviz" graphviz_def))
                end
            end
        end
  end.

(** The returned function: [options] is a reference, or omitted. *)
Definition run (h : heap) (c : closure) (target : string) (options0 : option loc)
  : sync handle * heap :=
  let (given, h0) := match options0 with
                     | Some l => (l, h)
                     | None => alloc h []
                     end in
  match read h0 given with
  | None => (Some (Throw (TypeError "options"), []), h0)
  | Some opts =>
      (* line 261: options = _.clone(options) *)
      let (ref, h1) := alloc h0 (clone opts) in
      match read h1 ref, read h1 (directory c) with
      | Some options, Some dir =>
          (match find (fun vComp => negb (exists_ (get options vComp))) (virtuals c) with
           | Some vComp => Some (Throw (MissingVirtualBinding vComp), [])
           | None => load (S (List.length (sorted c))) dir (seed options) target
           end, h1)
      | _, _ => (Some (Throw (TypeError "componentDirectory"), []), h1)
      end
  end.

End Store.

(** ** The specification's vocabulary *)

(** The three defects the specification lists for a component definition,
    read the way the source tests them: a type other than object, a [setup]
    that is not a function, and a [requires] that is truthy without being an
    array of strings. *)
Definition not_an_object (def : value) : bool :=
  negb (jstype_eqb (typeof def) TObject).

Definition setup_not_callable (def : value) : bool :=
  match prop def "setup" with
  | Some setup => negb (is_function setup)
  | None => true
  end.

Definition requires_malformed (def : value) : bool :=
  match prop def "requires" with
  | Some requires =>
      truthy requires
      && negb (match requires with
               | VArr items => forallb is_string items
               | _ => false
               end)
  | None => false
  end.

Definition malformed (def : value) : bool :=
  not_an_object def || setup_not_callable def || requires_malformed def.

(** The names a definition requires, none for a definition without any. *)
Definition required (def : value) : list string :=
  match requires_of def with
  | Some deps => deps
  | None => []
  end.

(** The dependency graph of a directory: an edge from each entry to each
    name it requires.  Virtual components have no outgoing edge. *)
Definition depends (componentDirectory : obj) (a b : string) : Prop :=
  exists def, In (a, def) componentDirectory /\ In b (required def).

Definition cyclic (R : string -> string -> Prop) : Prop :=
  exists n, clos_trans string R n n.

(** A directory that passes every check before the sort: its names are not
    virtual names, its entries are component definitions, and every
    required name is one the check of line 196 accepts. *)
Record well_formed (componentDirectory : obj) (virtualComponents : list string)
  : Prop := {
  wf_disjoint : forall name, In name (keys componentDirectory) ->
                             includes virtualComponents name = false;
  wf_valid : forall name def, In (name, def) componentDirectory ->
                              validateComponent def name = Normal tt;
  wf_closed : forall name def dep, In (name, def) componentDirectory ->
                In dep (required def) ->
                In dep (keys componentDirectory)
                \/ In dep virtualComponents
                \/ In dep object_prototype
}.

(** ** Graphs, orders and the checks of the constructor *)

(** [chain R x p]: the walk that starts at [x] and visits [p] in order. *)
Fixpoint chain (R : string -> string -> Prop) (x : string) (p : list string)
  : Prop :=
  match p with
  | [] => True
  | y :: p' => R x y /\ chain R y p'
  end.

(** The edges of the graph handed to the sort. *)
Definition tsort_edge (ts : TopoSort.t) (a b : string) : Prop :=
  In b (TopoSort.deps_of ts a).

(** An emitted list, last emitted first, in which every node comes after
    (to the left of) the nodes it depends on. *)
Fixpoint topological (ts : TopoSort.t) (done : list string) : Prop :=
  match done with
  | [] => True
  | n :: rest => incl (TopoSort.deps_of ts n) rest /\ topological ts rest
  end.

(** What holds of [pending] and [done] each time round the loop. *)
Record loop_inv (ts : TopoSort.t) (pending done : list string) : Prop := {
  inv_deps : forall n d, In n pending -> In d (TopoSort.deps_of ts n) ->
                         In d pending \/ In d done;
  inv_topo : topological ts done;
  inv_nodup : NoDup done;
  inv_apart : forall n, In n pending -> ~ In n done
}.

(** The test of line 196, on a directory of valid definitions: a name is
    accepted when it is a key, a virtual name, or a member every object
    inherits. *)
Definition accepted (dir : obj) (virtual : list string) (dep : string) : bool :=
  truthy (get dir dep) || includes virtual dep.

(** ** Example directories *)

(** A component definition with the setup function [UserFn id]. *)
Definition component (id : nat) (requires : list string) : value :=
  VObj [("requires", VArr (map VStr requires)); ("setup", VFun (UserFn id))].

(** [A requires [B, C]], [B requires [D]], [C requires [D]]. *)
Definition diamond (a b c d : nat) : obj :=
  [ ("A", component a ["B"; "C"]); ("B", component b ["D"]);
    ("C", component c ["D"]); ("D", component d []) ].









(** ** The memoization table and its promises *)

(** How a table comes to be: a promise is only ever stored under a name the
    table does not have yet; the seeds come first; a promise built by [load]
    waits for exactly what [loaded] held, at that moment, for the names its
    definition requires. *)
Inductive good (D : obj) : table -> Prop :=
| good_nil : good D []
| good_resolved loaded name comp :
    good D loaded ->
    (forall k p, In (k, p) loaded -> exists c, p = Resolved c) ->
    ~ In name (keys loaded) ->
    good D (store loaded name (Resolved comp))
| good_built loaded name requires deps :
    good D loaded ->
    loaded_at loaded name = None ->
    requires_of (get D name) = Some requires ->
    Forall2 (fun r h => loaded_at loaded r = Some h) requires deps ->
    good D (store loaded name (AllThen deps (get D name))).

(** What a call of [load], or of [requires.map(load)], leaves behind: a
    table grown by names of [l] that no object inherits, still [good], and
    on normal completion a result that satisfies [rel]. *)
Definition load_post {A : Type} (D : obj) (l : list string)
  (rel : table -> A -> Prop) (loaded : table) (r : sync A) : Prop :=
  exists c new,
    r = Some (c, loaded ++ new)
    /\ good D (loaded ++ new)
    /\ incl (keys new) l
    /\ (forall k, In k (keys new) -> inherited k = None)
    /\ (forall p, In p new -> exists deps def, snd p = AllThen deps def)
    /\ (forall a, c = Normal a -> rel (loaded ++ new) a).

Definition holds (target : string) (loaded : table) (h : handle) : Prop :=
  loaded_at loaded target = Some h.

Definition hold_all (requires : list string) (loaded : table) (deps : list handle)
  : Prop :=
  Forall2 (fun r h => loaded_at loaded r = Some h) requires deps.


(** The state a promise ends in, given the states of the others. *)
Definition entry_state (setup_of : func -> obj -> outcome)
  (race : string -> list failure -> nat) (L : Loader)
  (sts : list pstate) (name : string) (p : promise) : pstate :=
  match p with
  | Resolved comp => resolve setup_of comp
  | AllThen deps def =>
      match promise_all race name (map (handle_state sts) deps) with
      | AllPending => Pending
      | AllRejected r => Rejected r
      | AllFulfilled vs => state_of (call_setup setup_of L def (context (required def) vs))
      end
  end.

(** The call of its setup function, if it comes to that. *)
Definition entry_invoked (race : string -> list failure -> nat)
  (sts : list pstate) (name : string) (p : promise) : list (string * obj) :=
  match p with
  | Resolved _ => []
  | AllThen deps def =>
      match promise_all race name (map (handle_state sts) deps) with
      | AllFulfilled vs => [(name, context (required def) vs)]
      | _ => []
      end
  end.









(** ** The lines of the rendered graph *)

(** The four lines [dot] starts with (line 50). *)
Definition graph_header : list string :=
  [ "// This graph shows all dependencies for this loader.";
    "// You might find http://www.webgraphviz.com/ useful!";
    EmptyString;
    "digraph G {" ].

(** The line of a component (line 60) and the line of one of its
    dependencies (line 70). *)
Definition node_line (component : string) : string :=
  ("  " ++ quote ++ component ++ quote)%string.

Definition edge_line (component dep : string) : string :=
  ("  " ++ quote ++ component ++ quote ++ " -> "
        ++ quote ++ dep ++ quote ++ " [dir=back]")%string.

Definition component_lines (componentDirectory : obj) (component : string)
  : list string :=
  node_line component
    :: map (edge_line component) (required (get componentDirectory component)).

(** ** What a target needs *)



(** Every virtual component has a value in [options] (line 273). *)
Definition bound (virtual : list string) (options : obj) : Prop :=
  forall vComp, In vComp virtual -> is_nullish (get options vComp) = false.


(** ** Dictionaries *)

Lemma own_In {A : Type} (o : list (string * A)) k v :
  own o k = Some v -> In (k, v) o.
Proof.
  induction o as [|[k' v'] rest IH]; simpl; [discriminate|].
  destruct (String.eqb k' k) eqn:E.
  - apply String.eqb_eq in E. intros [= <-]. left. now subst.
  - intros H. right. auto.
Qed.

Lemma own_None_iff {A : Type} (o : list (string * A)) k :
  own o k = None <-> ~ In k (keys o).
Proof.
  induction o as [|[k' v'] rest IH]; simpl; [tauto|].
  destruct (String.eqb k' k) eqn:E.
  - apply String.eqb_eq in E. split; [discriminate|]. intros H. destruct H. now left.
  - apply String.eqb_neq in E. rewrite IH. tauto.
Qed.

Lemma own_Some_key {A : Type} (o : list (string * A)) k v :
  own o k = Some v -> In k (keys o).
Proof.
  intros H. apply own_In in H. unfold keys. now apply (in_map fst) in H.
Qed.

Lemma In_keys_own {A : Type} (o : list (string * A)) k :
  In k (keys o) -> exists v, own o k = Some v.
Proof.
  intros H. destruct (own o k) eqn:E; [eauto|].
  now apply own_None_iff in E.
Qed.

Lemma own_app {A : Type} (o1 o2 : list (string * A)) k :
  own (o1 ++ o2) k = match own o1 k with Some v => Some v | None => own o2 k end.
Proof.
  induction o1 as [|[k' v'] rest IH]; simpl; [reflexivity|].
  destruct (String.eqb k' k); auto.
Qed.

Lemma assign_fresh {A : Type} (o : list (string * A)) k v :
  own o k = None -> assign o k v = o ++ [(k, v)].
Proof.
  induction o as [|[k' v'] rest IH]; simpl; [reflexivity|].
  destruct (String.eqb k' k); [discriminate|].
  intros H. now rewrite IH.
Qed.

Lemma own_assign {A : Type} (o : list (string * A)) k v k' :
  own (assign o k v) k' = if String.eqb k k' then Some v else own o k'.
Proof.
  induction o as [|[k0 v0] rest IH]; simpl.
  - reflexivity.
  - destruct (String.eqb k0 k) eqn:E; simpl.
    + apply String.eqb_eq in E; subst. now destruct (String.eqb k k').
    + rewrite IH. destruct (String.eqb k0 k') eqn:E'; [|reflexivity].
      apply String.eqb_eq in E'; subst. rewrite String.eqb_sym in E. now rewrite E.
Qed.

Lemma includes_In (a : list string) v : includes a v = true <-> In v a.
Proof.
  unfold includes. rewrite existsb_exists. split.
  - intros (x & Hx & E). apply String.eqb_eq in E. now subst.
  - intros H. exists v. split; [assumption|apply String.eqb_refl].
Qed.

Lemma includes_false (a : list string) v : includes a v = false <-> ~ In v a.
Proof.
  rewrite <- includes_In. destruct (includes a v); split; congruence.
Qed.

Lemma inherited_In k : inherited k <> None <-> In k object_prototype.
Proof.
  unfold inherited. destruct (String.eqb k "__proto__") eqn:E.
  - apply String.eqb_eq in E; subst. split; [intros _|discriminate].
    simpl. repeat (try (left; reflexivity); right).
  - destruct (includes object_prototype k) eqn:I.
    + split; [intros _; now apply includes_In|discriminate].
    + split; [congruence|]. intros H. apply includes_In in H. congruence.
Qed.

Lemma inherited_truthy k v : inherited k = Some v -> truthy v = true.
Proof.
  unfold inherited. destruct (String.eqb k "__proto__");
    [|destruct (includes object_prototype k)]; intros [= <-]; reflexivity.
Qed.

(** ** What lodash visits *)

Lemma visited_plain (o : obj) : array_like o = None -> visited o = o.
Proof. intros H. unfold visited. now rewrite H. Qed.

Lemma index_key_inj i j : index_key i = index_key j -> i = j.
Proof.
  unfold index_key. intros H. apply DecimalNat.Unsigned.to_uint_inj.
  apply (f_equal DecimalString.NilEmpty.uint_of_string) in H. rewrite !DecimalString.NilEmpty.usu in H.
  now injection H.
Qed.

Lemma index_key_digit i : starts_with_digit (index_key i) = true.
Proof.
  unfold index_key.
  assert (Nat.to_uint i <> Decimal.Nil) as N.
  { rewrite <- (DecimalNat.Unsigned.of_to i) at 1. rewrite DecimalNat.Unsigned.to_of. apply DecimalFacts.unorm_nonnil. }
  destruct (Nat.to_uint i); [tauto|reflexivity..].
Qed.

Lemma index_key_not_inherited i : inherited (index_key i) = None.
Proof.
  pose proof (index_key_digit i) as D.
  destruct (inherited (index_key i)) as [v|] eqn:I; [|reflexivity].
  assert (In (index_key i) object_prototype) as P by (apply inherited_In; congruence).
  exfalso. unfold object_prototype in P.
  repeat (destruct P as [P|P]; [rewrite <- P in D; discriminate|]). destruct P.
Qed.

Lemma NoDup_map_inj {A B : Type} (f : A -> B) l :
  (forall x y, f x = f y -> x = y) -> NoDup l -> NoDup (map f l).
Proof.
  intros Inj ND. induction ND as [|x l Nin ND IH]; simpl; constructor; auto.
  intros H. apply in_map_iff in H as (y & E & Hy). apply Inj in E. now subst.
Qed.

Lemma visited_keys_NoDup (o : obj) : NoDup (keys o) -> NoDup (keys (visited o)).
Proof.
  intros ND. unfold visited. destruct (array_like o) as [n|]; [|assumption].
  unfold keys. rewrite map_map. cbn [fst].
  apply NoDup_map_inj; [|apply seq_NoDup].
  intros i j. apply index_key_inj.
Qed.

Lemma visited_key (o : obj) k :
  In k (keys (visited o)) -> In k (keys o) \/ starts_with_digit k = true.
Proof.
  unfold visited. destruct (array_like o) as [n|]; [|now left].
  intros H. right. unfold keys in H. rewrite map_map in H.
  apply in_map_iff in H as (i & <- & _). apply index_key_digit.
Qed.

Lemma visited_index (o : obj) n k v :
  array_like o = Some n -> In (k, v) (visited o) ->
  exists i, i < n /\ k = index_key i /\ v = get o k.
Proof.
  intros A H. unfold visited in H. rewrite A in H.
  apply in_map_iff in H as (i & [= <- <-] & Hi). apply in_seq in Hi.
  exists i. split; [lia|auto].
Qed.

(** ** Loops *)

Lemma forEach_Normal {A : Type} (f : A -> completion unit) l :
  forEach f l = Normal tt <-> forall a, In a l -> f a = Normal tt.
Proof.
  induction l as [|a rest IH]; simpl.
  - split; [intros _ ? []|reflexivity].
  - destruct (f a) as [[]|e] eqn:E; simpl.
    + rewrite IH. split.
      * intros H b [<-|Hb]; auto.
      * intros H b Hb. apply H. now right.
    + split; [discriminate|]. intros H. rewrite <- E. apply H. now left.
Qed.

Lemma forEach_Throw {A : Type} (f : A -> completion unit) l e :
  forEach f l = Throw e -> exists a, In a l /\ f a = Throw e.
Proof.
  induction l as [|a rest IH]; simpl; [discriminate|].
  destruct (f a) as [[]|e'] eqn:E; simpl.
  - intros H. destruct (IH H) as (b & Hb & Fb). exists b. split; [now right|assumption].
  - intros [= <-]. exists a. split; [now left|assumption].
Qed.

Lemma forEach_first {A : Type} (f : A -> completion unit) pre a post e :
  (forall x, In x pre -> f x = Normal tt) ->
  f a = Throw e ->
  forEach f (pre ++ a :: post) = Throw e.
Proof.
  intros Pre Fa. induction pre as [|x pre IH]; simpl.
  - now rewrite Fa.
  - rewrite (Pre x (or_introl eq_refl)). simpl. apply IH.
    intros y Hy. apply Pre. now right.
Qed.

(** ** validateComponent *)

Lemma validateComponent_nullish def name :
  is_nullish def = true -> validateComponent def name = Throw (TypeError "setup").
Proof. destruct def; simpl; try discriminate; reflexivity. Qed.

Lemma validateComponent_outcome def name :
  is_nullish def = false ->
  if malformed def
  then exists why, validateComponent def name = Throw (InvalidComponent name why)
  else validateComponent def name = Normal tt.
Proof.
  intros Hn. unfold malformed, not_an_object, setup_not_callable, requires_malformed,
    validateComponent.
  destruct def; simpl in *; try discriminate; eauto.
  (* plain objects are left *)
  destruct (get props "setup") as [| | | | |f| |]; simpl; eauto.
  destruct (get props "requires") as [| |b|n|s|g|items|ps]; simpl; eauto.
  - destruct b; simpl; eauto.
  - destruct (Z.eqb n 0); simpl; eauto.
  - destruct (String.eqb s EmptyString); simpl; eauto.
  - destruct (forallb is_string items); simpl; eauto.
Qed.

Lemma validateComponent_Normal def name :
  validateComponent def name = Normal tt ->
  is_nullish def = false /\ malformed def = false.
Proof.
  intros H. destruct (is_nullish def) eqn:N.
  - rewrite validateComponent_nullish in H by assumption. discriminate.
  - split; [reflexivity|]. pose proof (validateComponent_outcome def name N) as O.
    destruct (malformed def); [|reflexivity].
    destruct O as (why & O). congruence.
Qed.

(** A definition that passes is a truthy object with an own [setup]. *)
Lemma valid_truthy def name :
  validateComponent def name = Normal tt -> truthy def = true.
Proof.
  intros H. apply validateComponent_Normal in H as [N M].
  unfold malformed, not_an_object in M.
  destruct def; simpl in *; try discriminate; reflexivity.
Qed.

Lemma valid_requires def name :
  validateComponent def name = Normal tt ->
  requires_of def = Some (required def).
Proof.
  intros H. apply validateComponent_Normal in H as [N M].
  unfold required, requires_of. destruct def; simpl in *; try discriminate; reflexivity.
Qed.

(** ** The sort finds an order exactly when there is no cycle *)

Section Chains.

Variable R : string -> string -> Prop.

Lemma chain_reaches x p z : chain R x p -> In z p -> clos_trans string R x z.
Proof.
  revert x. induction p as [|y p IH]; intros x C Hz; [destruct Hz|].
  destruct C as [Rxy C]. destruct Hz as [<-|Hz].
  - now apply t_step.
  - apply t_trans with y; [now apply t_step|auto].
Qed.

Lemma chain_repeats x p : chain R x p -> ~ NoDup (x :: p) -> cyclic R.
Proof.
  revert x. induction p as [|y p IH]; intros x C ND.
  - destruct ND. constructor; [intros []|constructor].
  - destruct (in_dec string_dec x (y :: p)) as [Hin|Hout].
    + exists x. now apply chain_reaches with (y :: p).
    + destruct C as [_ C]. apply (IH y C). intros ND'. apply ND. now constructor.
Qed.

(** In a finite set where every element has a successor, walks of any
    length exist. *)
Lemma chain_grows (S : list string) :
  (forall x, In x S -> exists y, In y S /\ R x y) ->
  forall n x, In x S ->
  exists p, List.length p = n /\ chain R x p /\ incl p S.
Proof.
  intros Succ. induction n as [|n IH]; intros x Hx.
  - exists []. repeat split. intros ? [].
  - destruct (Succ x Hx) as (y & Hy & Rxy).
    destruct (IH y Hy) as (p & Len & C & Inc).
    exists (y :: p). simpl. repeat split; auto.
    intros z [<-|Hz]; auto.
Qed.

Lemma no_sink_cyclic (S : list string) x :
  In x S ->
  (forall x, In x S -> exists y, In y S /\ R x y) ->
  cyclic R.
Proof.
  intros Hx Succ.
  destruct (chain_grows S Succ (List.length S) x Hx) as (p & Len & C & Inc).
  apply (chain_repeats x p C). intros ND.
  assert (List.length (x :: p) <= List.length S) as Le.
  { apply NoDup_incl_length; [assumption|]. intros z [<-|Hz]; auto. }
  simpl in Le. lia.
Qed.

End Chains.

Lemma topological_closed ts done x y :
  topological ts done -> In x done -> tsort_edge ts x y -> In y done.
Proof.
  induction done as [|n rest IH]; simpl; [tauto|].
  intros [Inc T] [<-|Hx] E.
  - right. now apply Inc.
  - right. now apply IH.
Qed.

Lemma topological_closed_trans ts done x y :
  topological ts done -> In x done -> clos_trans string (tsort_edge ts) x y -> In y done.
Proof.
  intros T Hx P. induction P as [x y E|x y z _ IH1 _ IH2].
  - eapply topological_closed; eauto.
  - auto.
Qed.

Lemma topological_acyclic ts done z :
  topological ts done -> NoDup done -> In z done ->
  ~ clos_trans string (tsort_edge ts) z z.
Proof.
  induction done as [|n rest IH]; simpl; [tauto|].
  intros [Inc T] ND Hz P. inversion ND as [|? ? Hn ND']; subst.
  destruct (in_dec string_dec z rest) as [Hin|Hout].
  - now apply (IH T ND' Hin).
  - destruct Hz as [<-|Hz]; [|contradiction].
    apply Operators_Properties.clos_trans_t1n in P.
    inversion P as [y E|y w E P']; subst.
    + apply Hn. now apply Inc.
    + apply Hn. apply topological_closed_trans with (ts := ts) (x := y); auto.
      now apply Operators_Properties.clos_t1n_trans.
Qed.

Lemma deps_of_node ts a b :
  In b (TopoSort.deps_of ts a) -> In a (TopoSort.nodes ts) /\ In b (TopoSort.nodes ts).
Proof.
  unfold TopoSort.deps_of, TopoSort.nodes. rewrite in_flat_map.
  intros ([n ds] & He & Hb). simpl in Hb.
  destruct (String.eqb n a) eqn:E; [|destruct Hb].
  apply String.eqb_eq in E; subst.
  split; apply nodup_In; apply in_flat_map; exists (a, ds); simpl; auto.
Qed.

Section SortLoop.

Variable ts : TopoSort.t.

Lemma loop_inv_step pending done n :
  loop_inv ts pending done ->
  find (TopoSort.ready ts done) pending = Some n ->
  loop_inv ts (remove string_dec n pending) (n :: done).
Proof.
  intros [Hd Ht Hn Ha] F. apply find_some in F as [Hin Hr].
  unfold TopoSort.ready in Hr. rewrite forallb_forall in Hr.
  split.
  - intros m d Hm Hdm. apply in_remove in Hm as [Hm Hne].
    destruct (Hd m d Hm Hdm) as [H|H]; [|right; now right].
    destruct (string_dec d n) as [->|Hdn]; [right; now left|].
    left. now apply in_in_remove.
  - split; [|assumption]. intros d Hdn. apply includes_In. now apply Hr.
  - constructor; auto.
  - intros m Hm [<-|Hmd].
    + now apply remove_In in Hm.
    + apply in_remove in Hm as [Hm _]. now apply (Ha m).
Qed.

Lemma sort_loop_Some fuel pending done order :
  loop_inv ts pending done ->
  TopoSort.sort_loop fuel ts pending done = Some order ->
  topological ts order /\ NoDup order
  /\ (forall n, In n pending \/ In n done -> In n order).
Proof.
  revert pending done. induction fuel as [|fuel IH]; intros pending done I.
  - destruct pending; simpl; [|discriminate].
    intros [= <-]. destruct I. repeat split; auto. intros n [[]|H]; auto.
  - destruct pending as [|p pending']; cbn [TopoSort.sort_loop].
    + intros [= <-]. destruct I. repeat split; auto. intros n [[]|H]; auto.
    + destruct (find (TopoSort.ready ts done) (p :: pending')) as [n|] eqn:F;
        [|discriminate].
      intros H. pose proof (loop_inv_step _ _ _ I F) as I'.
      destruct (IH _ _ I' H) as (T & ND & All).
      repeat split; auto. intros m Hm. apply All.
      destruct (string_dec m n) as [->|Hne]; [right; now left|].
      destruct Hm as [Hm|Hm]; [left; now apply in_in_remove|right; now right].
Qed.

Lemma sort_loop_None fuel pending done :
  loop_inv ts pending done ->
  List.length pending <= fuel ->
  TopoSort.sort_loop fuel ts pending done = None ->
  cyclic (tsort_edge ts).
Proof.
  revert pending done. induction fuel as [|fuel IH]; intros pending done I Len.
  - destruct pending; simpl in *; [discriminate|lia].
  - destruct pending as [|p pending']; cbn [TopoSort.sort_loop]; [discriminate|].
    destruct (find (TopoSort.ready ts done) (p :: pending')) as [n|] eqn:F.
    + intros H. apply (IH _ _ (loop_inv_step _ _ _ I F)); [|assumption].
      apply find_some in F as [Hin _].
      pose proof (remove_length_lt string_dec (p :: pending') n Hin) as Lt.
      lia.
    + intros _. apply no_sink_cyclic with (S := p :: pending') (x := p); [now left|].
      intros x Hx. pose proof (find_none _ _ F x Hx) as Nr.
      unfold TopoSort.ready in Nr.
      destruct (forallb (includes done) (TopoSort.deps_of ts x)) eqn:Fa; [discriminate|].
      assert (exists d, In d (TopoSort.deps_of ts x) /\ includes done d = false)
        as (d & Hd & Hnd).
      { clear -Fa. induction (TopoSort.deps_of ts x) as [|d l IHl]; simpl in *;
          [discriminate|].
        destruct (includes done d) eqn:E.
        - destruct (IHl Fa) as (d' & ? & ?). exists d'. auto.
        - exists d. auto. }
      exists d. split; [|exact Hd].
      destruct (inv_deps _ _ _ I x d Hx Hd) as [H|H]; [assumption|].
      apply includes_false in Hnd. contradiction.
Qed.

End SortLoop.

Lemma loop_inv_init ts : loop_inv ts (TopoSort.nodes ts) [].
Proof.
  split.
  - intros n d _ Hd. left. now apply deps_of_node in Hd.
  - exact I.
  - constructor.
  - intros n _ [].
Qed.

(** A successful sort returns every node, each once, in topological order. *)
Lemma tsort_sort_Some ts order :
  TopoSort.sort ts = Some order ->
  topological ts order /\ NoDup order
  /\ (forall n, In n (TopoSort.nodes ts) -> In n order).
Proof.
  intros H. destruct (sort_loop_Some ts _ _ _ _ (loop_inv_init ts) H) as (T & ND & All).
  repeat split; auto.
Qed.

Lemma tsort_sort_acyclic ts order :
  TopoSort.sort ts = Some order -> ~ cyclic (tsort_edge ts).
Proof.
  intros H (z & P). apply tsort_sort_Some in H as (T & ND & All).
  apply (topological_acyclic ts order z T ND); [|assumption].
  apply All. apply Operators_Properties.clos_trans_t1n in P.
  inversion P as [y E|y w E _]; subst; now apply deps_of_node in E.
Qed.

Lemma tsort_sort_cyclic ts :
  TopoSort.sort ts = None -> cyclic (tsort_edge ts).
Proof.
  intros H. apply (sort_loop_None ts _ _ _ (loop_inv_init ts) (le_n _) H).
Qed.

(** ** The graph of a directory *)

Lemma fold_add_entry dir acc :
  fold_left add_entry dir acc = acc ++ map (fun e => (fst e, required (snd e))) dir.
Proof.
  revert acc. induction dir as [|e dir IH]; intros acc; simpl.
  - now rewrite app_nil_r.
  - rewrite IH. unfold add_entry, TopoSort.add, required.
    now rewrite <- app_assoc.
Qed.

Lemma fold_add_virtual virtual acc :
  fold_left (fun tsort name => TopoSort.add tsort name []) virtual acc
  = acc ++ map (fun name => (name, [])) virtual.
Proof.
  revert acc. induction virtual as [|v virtual IH]; intros acc; simpl.
  - now rewrite app_nil_r.
  - rewrite IH. unfold TopoSort.add. now rewrite <- app_assoc.
Qed.

Lemma build_graph_edge_visited dir virtual a b :
  tsort_edge (build_graph dir virtual) a b <-> depends (visited dir) a b.
Proof.
  unfold tsort_edge, build_graph, TopoSort.deps_of, depends.
  rewrite fold_add_virtual, fold_add_entry. unfold TopoSort.empty. simpl.
  rewrite flat_map_app, in_app_iff, !in_flat_map. split.
  - intros [(e & He & Hb)|(e & He & Hb)].
    + apply in_map_iff in He as ([n def] & <- & Hin). simpl in Hb.
      destruct (String.eqb n a) eqn:E; [|destruct Hb].
      apply String.eqb_eq in E; subst. now exists def.
    + apply in_map_iff in He as (v & <- & _). simpl in Hb.
      destruct (String.eqb v a); destruct Hb.
  - intros (def & Hin & Hb). left. exists (a, required def). split.
    + apply in_map_iff. now exists (a, def).
    + simpl. now rewrite String.eqb_refl.
Qed.

Lemma build_graph_edge dir virtual a b :
  array_like dir = None ->
  tsort_edge (build_graph dir virtual) a b <-> depends dir a b.
Proof.
  intros P. rewrite build_graph_edge_visited. now rewrite (visited_plain _ P).
Qed.

Lemma build_graph_cyclic dir virtual :
  array_like dir = None ->
  cyclic (tsort_edge (build_graph dir virtual)) <-> cyclic (depends dir).
Proof.
  intros Pl.
  assert (forall R R' : string -> string -> Prop,
             (forall a b, R a b -> R' a b) ->
             forall a b, clos_trans string R a b -> clos_trans string R' a b) as Mono.
  { intros R R' Sub a b P. induction P; [now apply t_step, Sub|eapply t_trans; eauto]. }
  split; intros (z & P); exists z; revert P; apply Mono; intros a b;
    now apply build_graph_edge.
Qed.

Lemma build_graph_nodes dir virtual name :
  In name (keys (visited dir)) -> In name (TopoSort.nodes (build_graph dir virtual)).
Proof.
  intros H. unfold TopoSort.nodes, build_graph.
  rewrite fold_add_virtual, fold_add_entry. unfold TopoSort.empty. simpl.
  apply nodup_In. rewrite flat_map_app. apply in_app_iff. left.
  unfold keys in H. apply in_map_iff in H as ([n def] & <- & Hin).
  apply in_flat_map. exists (n, required def). split; [|now left].
  apply in_map_iff. now exists (n, def).
Qed.

(** ** The checks of the constructor *)

Lemma intersection_empty a b :
  List.length (intersection a b) = 0 <-> forall x, In x a -> includes b x = false.
Proof.
  unfold intersection. induction a as [|x a IH]; simpl.
  - split; [intros _ ? []|reflexivity].
  - destruct (includes b x) eqn:E; simpl.
    + split; [discriminate|]. intros H. specialize (H x (or_introl eq_refl)). congruence.
    + rewrite IH. split.
      * intros H y [<-|Hy]; auto.
      * intros H y Hy. apply H. now right.
Qed.

Lemma check_requires_Normal dir virtual deps :
  check_requires dir virtual deps = Normal tt <->
  forall dep, In dep deps -> accepted dir virtual dep = true.
Proof.
  unfold check_requires, accepted. rewrite forEach_Normal.
  split; intros H dep Hd; specialize (H dep Hd); unfold throw_if in *;
    destruct (truthy (get dir dep)); destruct (includes virtual dep);
    simpl in *; congruence.
Qed.

Lemma check_requires_Throw dir virtual deps e :
  check_requires dir virtual deps = Throw e ->
  exists dep, e = UndefinedComponent dep /\ In dep deps
              /\ accepted dir virtual dep = false.
Proof.
  unfold check_requires, accepted. intros H.
  apply forEach_Throw in H as (dep & Hd & T). exists dep. unfold throw_if in T.
  destruct (truthy (get dir dep)); destruct (includes virtual dep);
    simpl in *; try discriminate. injection T as <-. auto.
Qed.

Lemma accepted_iff dir virtual dep :
  (forall name def, In (name, def) dir -> validateComponent def name = Normal tt) ->
  accepted dir virtual dep = true <->
  In dep (keys dir) \/ In dep virtual \/ In dep object_prototype.
Proof.
  intros Valid. unfold accepted, get. rewrite orb_true_iff, includes_In.
  destruct (own dir dep) as [d|] eqn:O.
  - pose proof (own_Some_key _ _ _ O) as K. apply own_In in O.
    rewrite (valid_truthy _ _ (Valid _ _ O)). tauto.
  - apply own_None_iff in O. destruct (inherited dep) as [m|] eqn:I.
    + rewrite (inherited_truthy _ _ I).
      assert (In dep object_prototype) by (apply inherited_In; congruence). tauto.
    + assert (~ In dep object_prototype) by (rewrite <- inherited_In; congruence).
      cbn [truthy]. split; [intros [F|F]; [discriminate|tauto]|tauto].
Qed.

Lemma check_entry_Normal dir virtual name def :
  check_entry dir virtual (name, def) = Normal tt <->
  validateComponent def name = Normal tt
  /\ forall dep, In dep (required def) -> accepted dir virtual dep = true.
Proof.
  unfold check_entry, bind. destruct (validateComponent def name) as [[]|e] eqn:V.
  - unfold requires_or_throw. rewrite (valid_requires _ _ V).
    rewrite check_requires_Normal. tauto.
  - split; [discriminate|intros [? _]; discriminate].
Qed.

(** A directory of component definitions has no numeric [length]. *)
Lemma well_formed_plain dir virtual : well_formed dir virtual -> array_like dir = None.
Proof.
  intros W. unfold array_like, get.
  destruct (own dir "length") as [d|] eqn:O; [|reflexivity].
  apply own_In in O. apply (wf_valid _ _ W) in O.
  destruct d; try reflexivity. discriminate.
Qed.

(** The directories without a numeric [length] that reach the sort are the
    well-formed ones. *)
Lemma checks_pass_iff dir virtual :
  array_like dir = None ->
  (List.length (intersection (keys dir) virtual) = 0
   /\ forEach (check_entry dir virtual) (visited dir) = Normal tt)
  <-> well_formed dir virtual.
Proof.
  intros Pl. rewrite (visited_plain _ Pl).
  rewrite intersection_empty, forEach_Normal. split.
  - intros [D C].
    assert (forall name def, In (name, def) dir ->
                             validateComponent def name = Normal tt) as Valid.
    { intros name def H. now apply C, check_entry_Normal in H. }
    split; auto. intros name def dep Hin Hd.
    apply (accepted_iff dir virtual dep Valid).
    apply C, check_entry_Normal in Hin as [_ A]. auto.
  - intros [D Valid Closed]. split; [assumption|]. intros [name def] Hin.
    apply check_entry_Normal. split; [auto|]. intros dep Hd.
    apply (accepted_iff dir virtual dep Valid). eauto.
Qed.

(** [loader], check by check. *)
Lemma loader_unfold dir virtual :
  loader dir virtual =
  if negb (Nat.eqb (List.length (intersection (keys dir) virtual)) 0)
  then Throw VirtualNameCollision
  else match forEach (check_entry dir virtual) (visited dir) with
       | Throw e => Throw e
       | Normal _ =>
           match TopoSort.sort (build_graph dir virtual) with
           | None => Throw CyclicDependency
           | Some topoSorted =>
               if truthy (get dir "graphviz") || includes virtual "graphviz"
               then Throw ReservedName
               else Normal {| componentDirectory := assign dir "graphviz" graphviz_def;
                              virtualComponents := virtual;
                              topoSorted := topoSorted |}
           end
       end.
Proof.
  unfold loader, clone, throw_if, bind.
  destruct (negb (Nat.eqb (List.length (intersection (keys dir) virtual)) 0));
    [reflexivity|].
  destruct (forEach (check_entry dir virtual) (visited dir)); [|reflexivity].
  destruct (TopoSort.sort (build_graph dir virtual)); [|reflexivity].
  now destruct (truthy (get dir "graphviz") || includes virtual "graphviz").
Qed.

Lemma loader_well_formed dir virtual :
  well_formed dir virtual ->
  loader dir virtual =
  match TopoSort.sort (build_graph dir virtual) with
  | None => Throw CyclicDependency
  | Some topoSorted =>
      if truthy (get dir "graphviz") || includes virtual "graphviz"
      then Throw ReservedName
      else Normal {| componentDirectory := assign dir "graphviz" graphviz_def;
                     virtualComponents := virtual;
                     topoSorted := topoSorted |}
  end.
Proof.
  intros W. pose proof (well_formed_plain _ _ W) as Pl.
  apply (checks_pass_iff _ _ Pl) in W as [D C].
  rewrite loader_unfold, D, C. reflexivity.
Qed.

(** What a constructed loader is made of, whatever the directory. *)
Lemma loader_fields dir virtual L :
  loader dir virtual = Normal L ->
  List.length (intersection (keys dir) virtual) = 0
  /\ forEach (check_entry dir virtual) (visited dir) = Normal tt
  /\ TopoSort.sort (build_graph dir virtual) = Some (topoSorted L)
  /\ truthy (get dir "graphviz") = false
  /\ includes virtual "graphviz" = false
  /\ componentDirectory L = assign dir "graphviz" graphviz_def
  /\ virtualComponents L = virtual.
Proof.
  rewrite loader_unfold.
  destruct (Nat.eqb (List.length (intersection (keys dir) virtual)) 0) eqn:D;
    simpl; [|discriminate].
  apply Nat.eqb_eq in D.
  destruct (forEach (check_entry dir virtual) (visited dir)) as [[]|e] eqn:C;
    [|discriminate].
  destruct (TopoSort.sort (build_graph dir virtual)) as [order|]; [|discriminate].
  destruct (truthy (get dir "graphviz")) eqn:G; simpl; [discriminate|].
  destruct (includes virtual "graphviz") eqn:V; [discriminate|].
  intros [= <-]. simpl. auto 10.
Qed.

(** What a loader constructed from a directory without a numeric [length]
    is made of. *)
Lemma loader_Normal dir virtual L :
  array_like dir = None ->
  loader dir virtual = Normal L ->
  well_formed dir virtual
  /\ TopoSort.sort (build_graph dir virtual) = Some (topoSorted L)
  /\ own dir "graphviz" = None
  /\ includes virtual "graphviz" = false
  /\ componentDirectory L = dir ++ [("graphviz", graphviz_def)]
  /\ virtualComponents L = virtual.
Proof.
  intros Pl HL. apply loader_fields in HL as (D & C & S & G & V & ED & EV).
  assert (well_formed dir virtual) as W by (now apply checks_pass_iff).
  assert (own dir "graphviz" = None) as O.
  { destruct (own dir "graphviz") as [d|] eqn:O; [|reflexivity].
    unfold get in G. rewrite O in G. apply own_In in O.
    rewrite (valid_truthy _ _ (wf_valid _ _ W _ _ O)) in G. discriminate. }
  split; [exact W|]. split; [exact S|]. split; [exact O|].
  split; [exact V|]. split; [|exact EV]. rewrite ED. now apply assign_fresh.
Qed.

Lemma reserved_truthy dir virtual :
  well_formed dir virtual ->
  In "graphviz" (keys dir) \/ In "graphviz" virtual ->
  truthy (get dir "graphviz") || includes virtual "graphviz" = true.
Proof.
  intros W [H|H].
  - apply In_keys_own in H as (d & O). unfold get. rewrite O.
    apply own_In in O. now rewrite (valid_truthy _ _ (wf_valid _ _ W _ _ O)).
  - apply includes_In in H. rewrite H. apply orb_true_r.
Qed.

Lemma sort_iff_acyclic dir virtual :
  array_like dir = None ->
  (exists order, TopoSort.sort (build_graph dir virtual) = Some order)
  <-> ~ cyclic (depends dir).
Proof.
  intros Pl. rewrite <- (build_graph_cyclic dir virtual Pl).
  destruct (TopoSort.sort (build_graph dir virtual)) as [order|] eqn:S.
  - split; [intros _|eauto]. now apply tsort_sort_acyclic with order.
  - split; [intros (? & [=])|]. intros H. destruct H. now apply tsort_sort_cyclic.
Qed.

Lemma validateComponent_Throw def name e :
  validateComponent def name = Throw e ->
  (exists why, e = InvalidComponent name why) \/ e = TypeError "setup".
Proof.
  intros H. destruct (is_nullish def) eqn:N.
  - rewrite validateComponent_nullish in H by assumption. injection H as <-. now right.
  - pose proof (validateComponent_outcome def name N) as O.
    destruct (malformed def).
    + destruct O as (why & O). left. exists why. congruence.
    + congruence.
Qed.

Lemma check_entry_Throw dir virtual entry e :
  check_entry dir virtual entry = Throw e ->
  (exists why, e = InvalidComponent (fst entry) why)
  \/ e = TypeError "setup"
  \/ (exists dep, e = UndefinedComponent dep /\ In dep (required (snd entry))
                  /\ accepted dir virtual dep = false).
Proof.
  destruct entry as [name def]. unfold check_entry, bind. simpl.
  destruct (validateComponent def name) as [[]|e'] eqn:V.
  - unfold requires_or_throw. rewrite (valid_requires _ _ V).
    intros H. right. right. now apply check_requires_Throw.
  - intros [= <-]. apply validateComponent_Throw in V as [V| ->]; auto.
Qed.

(** ** C7: validateComponent *)

(** C7, as stated, fails: a [null] definition does not produce
    InvalidComponent but the TypeError of reading [setup] of [null] (line
    28, which the guard of line 24 lets it reach); a definition whose
    [requires] is present but falsy, here [0], is accepted (line 32); and a
    directory with a numeric [length] is walked by index (line 186), so with
    [length: 0] its [null] entry is not validated at all and the loader is
    constructed. *)
Lemma C7_null_definition_is_a_TypeError :
  validateComponent VNull "a" = Throw (TypeError "setup")
  /\ loader [("a", VNull)] [] = Throw (TypeError "setup")
  /\ validateComponent (VObj [("setup", VFun (UserFn 0)); ("requires", VNum 0)]) "a"
     = Normal tt
  /\ exists L, loader [("length", VNum 0); ("a", VNull)] [] = Normal L.
Proof. repeat split. eexists. reflexivity. Qed.

(** C7, amended: for a definition that is neither [null] nor [undefined],
    [validateComponent] fails with InvalidComponent exactly when the
    definition is not an object, or its [setup] is not a function, or its
    [requires] is truthy without being an array of strings, and it returns
    normally otherwise; and a directory in which the walk of line 186 visits
    an entry that is [null], [undefined] or malformed in one of these ways
    is never constructed.  The walk visits every entry of a directory that
    has no numeric [length]. *)
Theorem validateComponent_rejects_malformed (def : value) (name : string) :
  (is_nullish def = false ->
   ((exists why, validateComponent def name = Throw (InvalidComponent name why))
    <-> malformed def = true)
   /\ (validateComponent def name = Normal tt <-> malformed def = false))
  /\ (is_nullish def = true \/ malformed def = true ->
      forall dir virtual,
        In (name, def) (visited dir)
        \/ (array_like dir = None /\ In (name, def) dir) ->
        forall L, loader dir virtual <> Normal L).
Proof.
  split.
  - intros N. pose proof (validateComponent_outcome def name N) as O.
    destruct (malformed def).
    + destruct O as (why & O). split; split; try congruence; eauto.
    + split; split; try congruence. intros (why & H). congruence.
  - intros Bad dir virtual Hin L HL.
    assert (In (name, def) (visited dir)) as Hv.
    { destruct Hin as [H|[Pl H]]; [assumption|]. now rewrite (visited_plain _ Pl). }
    apply loader_fields in HL as (_ & C & _).
    rewrite forEach_Normal in C. apply C, check_entry_Normal in Hv as [V _].
    apply validateComponent_Normal in V as [N M].
    destruct Bad; congruence.
Qed.

Lemma C7_witness :
  (exists why,
      validateComponent (VObj [("setup", VFun (UserFn 0));
                               ("requires", VArr [VStr "a"; VNum 1])]) "svc"
      = Throw (InvalidComponent "svc" why))
  /\ (forall L,
         loader [("svc", VObj [("setup", VFun (UserFn 0));
                               ("requires", VArr [VStr "a"; VNum 1])])] []
         <> Normal L).
Proof.
  destruct (validateComponent_rejects_malformed
              (VObj [("setup", VFun (UserFn 0));
                     ("requires", VArr [VStr "a"; VNum 1])]) "svc") as [A B].
  split.
  - apply (proj1 (A eq_refl)). reflexivity.
  - apply B; [right; reflexivity|right; split; [reflexivity|left; reflexivity]].
Defined.

(** ** C4: the reserved name *)

(** C4, as stated, fails: the reserved-name test (line 249) comes after the
    shape, reference and cycle checks, so a directory that defines
    [graphviz] and also has a cycle, or an undefined reference, is rejected
    for the cycle, or for the reference; and the test is on the value of
    [componentDirectory.graphviz], so a directory with a numeric [length],
    whose entries the walk of line 186 does not visit, is constructed
    although it has a [graphviz] entry, here [null]. *)
Lemma C4_earlier_checks_win :
  loader [("graphviz", component 0 []); ("a", component 1 ["a"])] []
  = Throw CyclicDependency
  /\ loader [("graphviz", component 0 []); ("a", component 1 ["missing"])] []
     = Throw (UndefinedComponent "missing")
  /\ (In "graphviz" (keys [("length", VNum 0); ("graphviz", VNull)])
      /\ exists L, loader [("length", VNum 0); ("graphviz", VNull)] [] = Normal L).
Proof.
  split; [reflexivity|]. split; [reflexivity|]. split; [right; now left|].
  eexists. reflexivity.
Qed.

(** C4, amended: a directory whose [graphviz] member is truthy, or a
    virtual list that declares [graphviz], is never constructed.  For a
    directory without a numeric [length], defining [graphviz] at all is
    enough, and the failure is ReservedName exactly when every earlier check
    passes, that is when the directory is well formed and acyclic; otherwise
    it is the failure of the earlier check. *)
Theorem reserved_name_rejected (dir : obj) (virtual : list string) :
  (truthy (get dir "graphviz") = true \/ In "graphviz" virtual ->
   forall L, loader dir virtual <> Normal L)
  /\ (array_like dir = None ->
      In "graphviz" (keys dir) \/ In "graphviz" virtual ->
      (forall L, loader dir virtual <> Normal L)
      /\ (loader dir virtual = Throw ReservedName
          <-> well_formed dir virtual /\ ~ cyclic (depends dir))).
Proof.
  split.
  { intros R L HL. apply loader_fields in HL as (_ & _ & _ & G & V & _).
    destruct R as [R|R]; [congruence|]. apply includes_In in R. congruence. }
  intros Pl R. split.
  - intros L HL. apply (loader_Normal _ _ _ Pl) in HL as (W & _ & O & V & _).
    destruct R as [R|R].
    + apply own_None_iff in O. contradiction.
    + apply includes_In in R. congruence.
  - split.
    + intros H. rewrite loader_unfold in H.
      destruct (Nat.eqb (List.length (intersection (keys dir) virtual)) 0) eqn:D;
        simpl in H; [|discriminate].
      apply Nat.eqb_eq in D.
      destruct (forEach (check_entry dir virtual) (visited dir)) as [[]|e] eqn:C.
      * split; [now apply checks_pass_iff|].
        apply (sort_iff_acyclic dir virtual Pl).
        destruct (TopoSort.sort (build_graph dir virtual)); [eauto|discriminate].
      * injection H as ->. apply forEach_Throw in C as (entry & _ & C).
        apply check_entry_Throw in C as [(? & [=])|[[=]|(? & [=] & _)]].
    + intros [W A]. rewrite (loader_well_formed _ _ W).
      apply (sort_iff_acyclic dir virtual Pl) in A as (order & ->).
      now rewrite (reserved_truthy _ _ W R).
Qed.

Lemma C4_witness :
  (forall L, loader [("graphviz", component 0 [])] [] <> Normal L)
  /\ loader [("graphviz", component 0 [])] [] = Throw ReservedName.
Proof.
  destruct (proj2 (reserved_name_rejected [("graphviz", component 0 [])] []))
    as [A B]; [reflexivity|left; simpl; auto|].
  split; [exact A|]. apply B. split.
  - apply checks_pass_iff; [reflexivity|]. split; reflexivity.
  - apply sort_iff_acyclic with (virtual := []); [reflexivity|]. eexists. vm_compute. reflexivity.
Defined.

(** ** C3: undefined components *)

(** C3, as stated, fails: each entry is validated before its references are
    looked at, and entries are taken in order, so a directory whose first
    entry is not a component definition is rejected for that, whatever the
    later entries require. *)
Lemma C3_invalid_entry_reported_first :
  In "missing" (required (component 1 ["missing"]))
  /\ ~ In "missing" (keys [("a", VNum 5); ("b", component 1 ["missing"])])
  /\ loader [("a", VNum 5); ("b", component 1 ["missing"])] []
     = Throw (InvalidComponent "a" MustBeObject).
Proof.
  split; [left; reflexivity|]. split; [|reflexivity].
  simpl. intros [H|[H|[]]]; discriminate.
Qed.

(** C3, amended: the entries are checked in the order in which the walk
    of line 186 visits them (every entry, for a directory without a numeric
    [length]), each one for its shape before its references.  When the names
    of the directory are not virtual names, every entry visited before
    passes its check, and the next one is a valid definition, the first name
    of whose [requires] that the test of line 196 does not accept is neither
    a directory key, nor a virtual name, nor the name of a member inherited
    from [Object.prototype], then construction fails with
    UndefinedComponent, reported for that name. *)
Theorem undefined_component_rejected (dir : obj) (virtual : list string)
  (pre : obj) (name : string) (def : value) (post : obj)
  (before : list string) (dep : string) (after : list string) :
  (forall n, In n (keys dir) -> ~ In n virtual) ->
  visited dir = pre ++ (name, def) :: post ->
  (forall n d, In (n, d) pre ->
               validateComponent d n = Normal tt
               /\ forall r, In r (required d) -> accepted dir virtual r = true) ->
  validateComponent def name = Normal tt ->
  required def = before ++ dep :: after ->
  (forall r, In r before -> accepted dir virtual r = true) ->
  ~ In dep (keys dir) -> ~ In dep virtual -> ~ In dep object_prototype ->
  loader dir virtual = Throw (UndefinedComponent dep).
Proof.
  intros D Vis Pre Valid Req Before NK NV NP. rewrite loader_unfold.
  replace (Nat.eqb (List.length (intersection (keys dir) virtual)) 0) with true.
  2:{ symmetry. apply Nat.eqb_eq, intersection_empty.
      intros x Hx. apply includes_false. auto. }
  simpl. rewrite Vis.
  rewrite (forEach_first _ pre (name, def) post (UndefinedComponent dep));
    [reflexivity| |].
  - intros [n d] Hin. apply check_entry_Normal. auto.
  - unfold check_entry, bind. rewrite Valid.
    unfold requires_or_throw. rewrite (valid_requires _ _ Valid), Req.
    unfold check_requires. apply forEach_first.
    + intros r Hr. apply Before in Hr. unfold accepted in Hr. unfold throw_if.
      destruct (truthy (get dir r)), (includes virtual r); try reflexivity.
      discriminate.
    + apply own_None_iff in NK. apply includes_false in NV.
      assert (inherited dep = None) as I.
      { destruct (inherited dep) eqn:I; [|reflexivity].
        exfalso. apply NP, inherited_In. congruence. }
      unfold get. now rewrite NK, I, NV.
Qed.

Lemma C3_witness :
  loader [("db", component 1 []); ("app", component 0 ["db"; "cache"; "queue"])]
         ["config"]
  = Throw (UndefinedComponent "cache").
Proof.
  apply (undefined_component_rejected
           [("db", component 1 []); ("app", component 0 ["db"; "cache"; "queue"])]
           ["config"]
           [("db", component 1 [])] "app" (component 0 ["db"; "cache"; "queue"]) []
           ["db"] "cache" ["queue"]).
  - intros n [<-|[<-|[]]] [H|[]]; discriminate.
  - reflexivity.
  - intros n d [[= <- <-]|[]]. split; [reflexivity|intros r []].
  - reflexivity.
  - reflexivity.
  - intros r [<-|[]]. reflexivity.
  - simpl. intros [H|[H|[]]]; discriminate.
  - simpl. intros [H|[]]. discriminate.
  - apply includes_false. reflexivity.
Defined.

(** ** C2: cycles *)

(** C2, as stated, fails: an acyclic, well-formed directory that defines the
    reserved name is rejected. *)
Lemma C2_acyclic_but_reserved :
  well_formed [("graphviz", component 0 [])] []
  /\ ~ cyclic (depends [("graphviz", component 0 [])])
  /\ loader [("graphviz", component 0 [])] [] = Throw ReservedName.
Proof.
  split; [|split].
  - apply checks_pass_iff; [reflexivity|]. split; reflexivity.
  - apply sort_iff_acyclic with (virtual := []); [reflexivity|]. eexists. vm_compute. reflexivity.
  - reflexivity.
Qed.

(** C2, amended: for a well-formed directory (its names are not virtual
    names, its entries are valid definitions, its references are accepted),
    a cycle in the dependency graph, a self-loop included, makes
    construction fail with CyclicDependency; and when the graph is acyclic
    and the reserved name is neither defined nor declared virtual,
    construction succeeds. *)
Theorem construction_decided_by_cycles (dir : obj) (virtual : list string) :
  well_formed dir virtual ->
  (cyclic (depends dir) -> loader dir virtual = Throw CyclicDependency)
  /\ (forall name def, In (name, def) dir -> In name (required def) ->
                       loader dir virtual = Throw CyclicDependency)
  /\ (~ cyclic (depends dir) ->
      ~ In "graphviz" (keys dir) -> ~ In "graphviz" virtual ->
      exists L, loader dir virtual = Normal L).
Proof.
  intros W. pose proof (well_formed_plain _ _ W) as Pl.
  rewrite (loader_well_formed _ _ W).
  assert (cyclic (depends dir) ->
          match TopoSort.sort (build_graph dir virtual) with
          | Some topoSorted =>
              if truthy (get dir "graphviz") || includes virtual "graphviz"
              then Throw ReservedName
              else Normal {| componentDirectory := assign dir "graphviz" graphviz_def;
                             virtualComponents := virtual;
                             topoSorted := topoSorted |}
          | None => Throw CyclicDependency
          end = Throw CyclicDependency) as Cyc.
  { intros Cy. destruct (TopoSort.sort (build_graph dir virtual)) as [order|] eqn:S;
      [|reflexivity].
    exfalso. apply (proj1 (sort_iff_acyclic dir virtual Pl)); eauto. }
  split; [exact Cyc|]. split.
  - intros name def Hin Hself. apply Cyc. exists name. apply t_step. now exists def.
  - intros A NK NV.
    apply (sort_iff_acyclic dir virtual Pl) in A as (order & ->).
    apply own_None_iff in NK. apply includes_false in NV.
    unfold get. rewrite NK, NV. simpl. eauto.
Qed.

Lemma C2_witness :
  loader [("a", component 0 ["a"])] [] = Throw CyclicDependency
  /\ loader [("a", component 0 ["b"]); ("b", component 1 ["a"])] []
     = Throw CyclicDependency
  /\ exists L, loader (diamond 0 1 2 3) [] = Normal L.
Proof.
  split; [|split].
  - apply (construction_decided_by_cycles [("a", component 0 ["a"])] [])
      with (name := "a") (def := component 0 ["a"]).
    + apply checks_pass_iff; [reflexivity|]. split; reflexivity.
    + left. reflexivity.
    + left. reflexivity.
  - apply (construction_decided_by_cycles
             [("a", component 0 ["b"]); ("b", component 1 ["a"])] []).
    + apply checks_pass_iff; [reflexivity|]. split; reflexivity.
    + exists "a". apply t_trans with "b"; apply t_step.
      * exists (component 0 ["b"]). split; [left; reflexivity|left; reflexivity].
      * exists (component 1 ["a"]).
        split; [right; left; reflexivity|left; reflexivity].
  - apply (construction_decided_by_cycles (diamond 0 1 2 3) []).
    + apply checks_pass_iff; [reflexivity|]. split; reflexivity.
    + apply sort_iff_acyclic with (virtual := []); [reflexivity|]. eexists. vm_compute. reflexivity.
    + simpl. intros [H|[H|[H|[H|[]]]]]; discriminate.
    + intros [].
Defined.

(** ** The memoization table *)

Lemma keys_app {A : Type} (o1 o2 : list (string * A)) :
  keys (o1 ++ o2) = keys o1 ++ keys o2.
Proof. unfold keys. apply map_app. Qed.

Lemma NoDup_snoc {A : Type} (l : list A) a : NoDup l -> ~ In a l -> NoDup (l ++ [a]).
Proof.
  intros ND Hn. apply NoDup_rev in ND.
  rewrite <- (rev_involutive (l ++ [a])). apply NoDup_rev.
  rewrite rev_app_distr. simpl. constructor; [|assumption].
  now rewrite <- in_rev.
Qed.

Lemma latest_from_None i (loaded : table) k :
  latest_from i loaded k = None <-> ~ In k (keys loaded).
Proof.
  revert i. induction loaded as [|[k' p] rest IH]; intros i; simpl; [tauto|].
  destruct (latest_from (S i) rest k) as [j|] eqn:E.
  - split; [discriminate|]. intros H. exfalso.
    assert (~ In k (keys rest)) as N by tauto.
    apply (IH (S i)) in N. congruence.
  - apply IH in E. destruct (String.eqb k' k) eqn:Q.
    + apply String.eqb_eq in Q. split; [discriminate|]. tauto.
    + apply String.eqb_neq in Q. tauto.
Qed.

Lemma latest_from_Some i (loaded : table) k j :
  latest_from i loaded k = Some j ->
  i <= j /\ exists p, nth_error loaded (j - i) = Some (k, p).
Proof.
  revert i. induction loaded as [|[k' p] rest IH]; intros i; simpl; [discriminate|].
  destruct (latest_from (S i) rest k) as [j'|] eqn:E.
  - intros [= ->]. destruct (IH (S i) E) as (Le & q & N). split; [lia|].
    exists q. replace (j - i) with (S (j - S i)) by lia. exact N.
  - destruct (String.eqb k' k) eqn:Q; [|discriminate].
    apply String.eqb_eq in Q. intros [= <-]. split; [lia|].
    exists p. rewrite Nat.sub_diag. now subst.
Qed.

Lemma latest_from_app i (l l' : table) k :
  latest_from i (l ++ l') k =
  match latest_from (i + List.length l) l' k with
  | Some j => Some j
  | None => latest_from i l k
  end.
Proof.
  revert i. induction l as [|[k' p] rest IH]; intros i; simpl.
  - rewrite Nat.add_0_r. now destruct (latest_from i l' k).
  - rewrite IH. rewrite <- Nat.add_succ_comm.
    now destruct (latest_from (S i + List.length rest) l' k).
Qed.


Lemma nth_error_key {A : Type} (o : list (string * A)) j k p :
  nth_error o j = Some (k, p) -> In k (keys o).
Proof.
  intros H. apply nth_error_In in H. unfold keys. now apply (in_map fst) in H.
Qed.

Lemma latest_from_unique i (loaded : table) k j p :
  NoDup (keys loaded) -> nth_error loaded j = Some (k, p) ->
  latest_from i loaded k = Some (i + j).
Proof.
  revert i j. induction loaded as [|[k' q] rest IH]; intros i j ND N;
    [destruct j; discriminate|].
  inversion ND as [|? ? Hk ND']; subst. simpl.
  destruct j as [|j]; simpl in N.
  - injection N as -> ->.
    assert (latest_from (S i) rest k = None) as -> by (now apply latest_from_None).
    now rewrite String.eqb_refl, Nat.add_0_r.
  - rewrite (IH (S i) j ND' N). f_equal. lia.
Qed.

(** Under distinct names, the promise stored under a name is the latest. *)
Lemma latest_unique (loaded : table) k j p :
  NoDup (keys loaded) -> nth_error loaded j = Some (k, p) -> latest loaded k = Some j.
Proof. intros ND N. unfold latest. now rewrite (latest_from_unique 0 _ _ _ _ ND N). Qed.

Lemma loaded_at_None loaded target :
  loaded_at loaded target = None <->
  ~ In target (keys loaded) /\ inherited target = None.
Proof.
  unfold loaded_at, latest. destruct (latest_from 0 loaded target) as [j|] eqn:E.
  - split; [discriminate|]. intros [N _]. apply (latest_from_None 0) in N. congruence.
  - apply latest_from_None in E. destruct (inherited target); split;
      try discriminate; try tauto. intros [_ ?]. discriminate.
Qed.

Lemma good_NoDup D loaded : good D loaded -> NoDup (keys loaded).
Proof.
  induction 1 as [|loaded name comp G IH _ O|loaded name requires deps G IH O R F];
    [constructor| |]; unfold store; rewrite keys_app; simpl; apply NoDup_snoc; auto.
  now apply loaded_at_None in O.
Qed.

(** What [loaded] holds for a name does not change when the table grows by
    new names that no object inherits. *)
Lemma loaded_at_mono loaded new r h :
  NoDup (keys (loaded ++ new)) ->
  (forall k, In k (keys new) -> inherited k = None) ->
  loaded_at loaded r = Some h ->
  loaded_at (loaded ++ new) r = Some h.
Proof.
  intros ND Fresh. unfold loaded_at, latest. rewrite latest_from_app. simpl.
  assert (In r (keys loaded) \/ inherited r <> None ->
          latest_from (List.length loaded) new r = None) as Out.
  { intros H. apply latest_from_None. intros Hn. destruct H as [H|H].
    - rewrite keys_app in ND. revert H Hn. clear -ND.
      induction (keys loaded) as [|a l IH]; simpl in *; [tauto|].
      inversion ND as [|? ? Ha ND']; subst. intros [<-|H] Hn; [|auto].
      apply Ha. apply in_app_iff. now right.
    - now apply Fresh in Hn. }
  destruct (latest_from 0 loaded r) as [j|] eqn:E.
  - rewrite Out; [auto|]. left. apply latest_from_Some in E as (_ & p & N).
    now apply nth_error_key in N.
  - destruct (inherited r) eqn:I; [|discriminate]. rewrite Out; [auto|].
    right. congruence.
Qed.




(** The seeds: one resolved promise per member of [options] that the walk
    of line 293 visits. *)
Lemma seed_map options :
  seed options = map (fun e => (fst e, Resolved (snd e))) (visited options).
Proof.
  unfold seed. rewrite <- (app_nil_l (map _ (visited options))).
  generalize (@nil (string * promise)).
  induction (visited options) as [|e l IH]; intros acc; simpl.
  - now rewrite app_nil_r.
  - rewrite IH. unfold store. now rewrite <- app_assoc.
Qed.

Lemma seed_keys options : keys (seed options) = keys (visited options).
Proof. rewrite seed_map. unfold keys. rewrite map_map. reflexivity. Qed.


Lemma seed_resolved options k p : In (k, p) (seed options) -> exists c, p = Resolved c.
Proof.
  rewrite seed_map. intros H. apply in_map_iff in H as (e & [= _ <-] & _). eauto.
Qed.

Lemma resolved_good D loaded :
  NoDup (keys loaded) ->
  (forall k p, In (k, p) loaded -> exists c, p = Resolved c) ->
  good D loaded.
Proof.
  induction loaded as [|[k p] loaded IH] using rev_ind; intros ND AR.
  - constructor.
  - rewrite keys_app in ND. simpl in ND.
    destruct (AR k p) as (c & ->); [apply in_app_iff; right; now left|].
    apply good_resolved.
    + apply IH; [now apply NoDup_app_remove_r in ND|].
      intros k' p' H. apply (AR k' p'). apply in_app_iff. now left.
    + intros k' p' H. apply (AR k' p'). apply in_app_iff. now left.
    + apply NoDup_remove_2 with (l' := []) in ND. now rewrite app_nil_r in ND.
Qed.

Lemma seed_good D options : NoDup (keys options) -> good D (seed options).
Proof.
  intros ND. apply resolved_good; [|apply seed_resolved].
  rewrite seed_keys. now apply visited_keys_NoDup.
Qed.


(** ** The recursion of [load] *)

Lemma load_unfold fuel D loaded target :
  load (S fuel) D loaded target =
  match loaded_at loaded target with
  | Some h => Some (Normal h, loaded)
  | None =>
      match requires_of (get D target) with
      | None => Some (Throw (TypeError "requires"), loaded)
      | Some requires =>
          match map_load (load fuel D) requires loaded with
          | None => None
          | Some (Throw e, loaded1) => Some (Throw e, loaded1)
          | Some (Normal deps, loaded1) =>
              Some (Normal (HPromise (List.length loaded1)),
                    store loaded1 target (AllThen deps (get D target)))
          end
      end
  end.
Proof. reflexivity. Qed.

Lemma load_memoized fuel D loaded target h :
  loaded_at loaded target = Some h ->
  load fuel D loaded target = Some (Normal h, loaded).
Proof. intros H. destruct fuel; simpl; now rewrite H. Qed.

Lemma map_load_post D l f requires :
  (forall r, In r requires -> forall loaded, good D loaded ->
             load_post D l (holds r) loaded (f loaded r)) ->
  forall loaded, good D loaded ->
  load_post D l (hold_all requires) loaded (map_load f requires loaded).
Proof.
  induction requires as [|r requires IH]; intros Hf loaded G; simpl.
  - exists (Normal []), []. rewrite app_nil_r. repeat split; auto.
    + intros ? [].
    + intros ? [].
    + intros ? [].
    + intros a [= <-]. constructor.
  - destruct (Hf r (or_introl eq_refl) loaded G)
      as (c & new & -> & G1 & I1 & F1 & B1 & R1).
    destruct c as [h|e].
    + destruct (IH (fun r' Hr' => Hf r' (or_intror Hr')) _ G1)
        as (c2 & new2 & -> & G2 & I2 & F2 & B2 & R2).
      assert (incl (keys (new ++ new2)) l) as I12.
      { rewrite keys_app. now apply incl_app. }
      assert (forall k, In k (keys (new ++ new2)) -> inherited k = None) as F12.
      { intros k. rewrite keys_app, in_app_iff. intros [H|H]; auto. }
      assert (forall p, In p (new ++ new2) -> exists deps def, snd p = AllThen deps def)
        as B12.
      { intros p. rewrite in_app_iff. intros [H|H]; auto. }
      destruct c2 as [hs|e].
      * exists (Normal (h :: hs)), (new ++ new2). rewrite app_assoc.
        repeat split; auto; try (now rewrite <- app_assoc).
        intros a [= <-]. constructor; [|now apply R2].
        apply loaded_at_mono; [now apply good_NoDup with D|assumption|now apply R1].
      * exists (Throw e), (new ++ new2). rewrite app_assoc.
        repeat split; auto; try (now rewrite <- app_assoc); discriminate.
    + exists (Throw e), new. repeat split; auto; discriminate.
Qed.

Section LoadTerminates.

Variable D : obj.
Variable ts : TopoSort.t.

(** The graph handed to the sort has an edge for every name [load] follows. *)
Hypothesis follows :
  forall n requires, requires_of (get D n) = Some requires ->
                     incl requires (TopoSort.deps_of ts n).

(** What [load] does for a target the table does not hold, once the table
    is known to stay clear of the target while its requirements load. *)
Lemma load_builds l fuel loaded target :
  good D loaded ->
  loaded_at loaded target = None ->
  ~ In target l ->
  (forall requires, requires_of (get D target) = Some requires ->
                    load_post D l (hold_all requires) loaded
                      (map_load (load fuel D) requires loaded)) ->
  load_post D (target :: l) (holds target) loaded (load (S fuel) D loaded target).
Proof.
  intros G At Hout M. rewrite load_unfold, At.
  destruct (requires_of (get D target)) as [requires|] eqn:Rq.
  - destruct (M requires eq_refl) as (c & new & -> & G1 & I1 & F1 & B1 & R1).
    destruct c as [deps|e].
    + apply loaded_at_None in At as [O Inh].
      assert (loaded_at (loaded ++ new) target = None) as At1.
      { apply loaded_at_None. split; [|assumption]. rewrite keys_app, in_app_iff.
        intros [H|H]; [contradiction|]. apply Hout. now apply I1. }
      assert (good D (store (loaded ++ new) target (AllThen deps (get D target)))) as G2.
      { apply good_built with requires; auto. now apply R1. }
      exists (Normal (HPromise (List.length (loaded ++ new)))),
        (new ++ [(target, AllThen deps (get D target))]).
      unfold store in *. rewrite app_assoc. repeat split; auto.
      * rewrite keys_app. apply incl_app; [now apply incl_tl|].
        intros k [<-|[]]. now left.
      * intros k. rewrite keys_app, in_app_iff. intros [H|[<-|[]]]; auto.
      * intros p. rewrite in_app_iff. intros [H|[<-|[]]]; simpl; eauto.
      * intros a [= <-]. unfold holds, loaded_at.
        rewrite (latest_unique _ target (List.length (loaded ++ new))
                   (AllThen deps (get D target))); [reflexivity| |].
        -- now apply good_NoDup with D.
        -- rewrite nth_error_app2, Nat.sub_diag; [reflexivity|lia].
    + exists (Throw e), new. repeat split; auto; [now apply incl_tl|discriminate].
  - exists (Throw (TypeError "requires")), []. rewrite app_nil_r.
    repeat split; auto.
    + intros ? [].
    + intros ? [].
    + intros ? [].
    + discriminate.
Qed.

Lemma load_held l fuel loaded target h :
  good D loaded -> loaded_at loaded target = Some h ->
  load_post D l (holds target) loaded (load fuel D loaded target).
Proof.
  intros G At. rewrite (load_memoized _ _ _ _ _ At).
  exists (Normal h), []. rewrite app_nil_r. repeat split; auto.
  - intros ? [].
  - intros ? [].
  - intros ? [].
  - now intros a [= <-].
Qed.

Lemma load_in_order l :
  topological ts l -> NoDup l ->
  forall target, In target l ->
  forall fuel loaded, List.length l <= fuel -> good D loaded ->
  load_post D l (holds target) loaded (load fuel D loaded target).
Proof.
  induction l as [|n l IH]; intros T ND target Hin fuel loaded Len G;
    [destruct Hin|].
  destruct T as [Inc T]. inversion ND as [|? ? Hn ND']; subst.
  destruct fuel as [|fuel]; [simpl in Len; lia|]. simpl in Len.
  destruct (in_dec string_dec target l) as [Hl|Hl].
  - destruct (IH T ND' target Hl (S fuel) loaded) as (c & new & E & G' & I' & F' & B' & R');
      [lia|assumption|].
    exists c, new. repeat split; auto. now apply incl_tl.
  - destruct Hin as [<-|Hin]; [|contradiction].
    destruct (loaded_at loaded n) as [h|] eqn:At; [now apply load_held with h|].
    apply load_builds; auto. intros requires Rq.
    apply map_load_post; [|assumption]. intros r Hr loaded' G'.
    apply IH; auto; [|lia]. apply Inc. now apply (follows n requires).
Qed.

(** With fuel beyond the length of a topological order of all nodes, [load]
    completes for any target. *)
Lemma load_completes order :
  topological ts order -> NoDup order ->
  (forall n, In n (TopoSort.nodes ts) -> In n order) ->
  forall target fuel loaded, List.length order < fuel -> good D loaded ->
  load_post D (target :: order) (holds target) loaded (load fuel D loaded target).
Proof.
  intros T ND All target fuel loaded Len G.
  destruct (in_dec string_dec target order) as [Hin|Hout].
  - destruct (load_in_order order T ND target Hin fuel loaded)
      as (c & new & E & G' & I' & F' & B' & R'); [lia|assumption|].
    exists c, new. repeat split; auto. now apply incl_tl.
  - destruct fuel as [|fuel]; [lia|].
    destruct (loaded_at loaded target) as [h|] eqn:At; [now apply load_held with h|].
    apply load_builds; auto. intros requires Rq.
    apply map_load_post; [|assumption]. intros r Hr loaded' G'.
    apply load_in_order; auto; [|lia].
    apply All. apply (follows _ _ Rq) in Hr. now apply deps_of_node in Hr.
Qed.

End LoadTerminates.

(** ** A constructed loader *)

Lemma own_snoc_graphviz dir n :
  get (dir ++ [("graphviz", graphviz_def)]) n =
  match own dir n with
  | Some d => d
  | None => if String.eqb "graphviz" n then graphviz_def else get [] n
  end.
Proof.
  unfold get. rewrite own_app. destruct (own dir n); [reflexivity|]. simpl.
  now destruct (String.eqb "graphviz" n).
Qed.

Lemma loader_follows dir virtual L :
  loader dir virtual = Normal L ->
  array_like dir = None ->
  forall n requires,
    requires_of (get (componentDirectory L) n) = Some requires ->
    incl requires (TopoSort.deps_of (build_graph dir virtual) n).
Proof.
  intros HL Pl n requires Rq.
  apply (loader_Normal _ _ _ Pl) in HL as (W & _ & _ & _ & E & _).
  rewrite E, own_snoc_graphviz in Rq. destruct (own dir n) as [d|] eqn:O.
  - apply own_In in O. pose proof (wf_valid _ _ W _ _ O) as V.
    rewrite (valid_requires _ _ V) in Rq. injection Rq as <-.
    intros r Hr. apply (build_graph_edge dir virtual n r Pl). now exists d.
  - assert (requires = []) as ->; [|intros ? []].
    destruct (String.eqb "graphviz" n); [now injection Rq as <-|].
    unfold get, inherited in Rq. cbn [own] in Rq.
    destruct (String.eqb n "__proto__"); [now injection Rq as <-|].
    destruct (includes object_prototype n); [now injection Rq as <-|discriminate].
Qed.

(** The synchronous part of a call never runs out of fuel. *)
Lemma load_of_loader dir virtual L target loaded :
  loader dir virtual = Normal L ->
  array_like dir = None ->
  good (componentDirectory L) loaded ->
  load_post (componentDirectory L) (target :: topoSorted L) (holds target) loaded
    (load (S (List.length (topoSorted L))) (componentDirectory L) loaded target).
Proof.
  intros HL Pl G. pose proof (loader_follows _ _ _ HL Pl) as F.
  apply (loader_Normal _ _ _ Pl) in HL as (_ & S & _).
  apply tsort_sort_Some in S as (T & ND & All).
  apply (load_completes _ _ F _ T ND All); [lia|assumption].
Qed.

Lemma run_unfold L target options :
  run L target options =
  match find (fun vComp => negb (exists_ (get options vComp))) (virtualComponents L) with
  | Some vComp => Some (Throw (MissingVirtualBinding vComp), [])
  | None =>
      load (S (List.length (topoSorted L))) (componentDirectory L) (seed options) target
  end.
Proof. reflexivity. Qed.

Lemma run_completes dir virtual L target options :
  loader dir virtual = Normal L ->
  array_like dir = None ->
  NoDup (keys options) ->
  exists r, run L target options = Some r /\ good (componentDirectory L) (snd r).
Proof.
  intros HL Pl ND. rewrite run_unfold.
  destruct (find _ (virtualComponents L)) as [v|].
  - eexists. split; [reflexivity|]. constructor.
  - destruct (load_of_loader _ _ _ target (seed options) HL Pl (seed_good _ _ ND))
      as (c & new & -> & G & _).
    eexists. split; [reflexivity|]. exact G.
Qed.

(** ** What settling a good table comes to *)

(** Every promise built by [load] is filed under a name no object inherits,
    keeps the definition the directory has for that name, and waits for
    what the table holds for the names that definition requires. *)
Lemma good_entries D loaded :
  good D loaded ->
  forall n deps def, In (n, AllThen deps def) loaded ->
    def = get D n /\ inherited n = None
    /\ requires_of def = Some (required def)
    /\ hold_all (required def) loaded deps.
Proof.
  induction 1 as [|loaded name comp G IH AR O|loaded name requires deps0 G IH O R F];
    intros n deps def Hin.
  - destruct Hin.
  - apply in_app_iff in Hin as [Hin|[[=]|[]]].
    destruct (AR _ _ Hin) as (c & [=]).
  - pose proof (good_NoDup _ _ (good_built D loaded name requires deps0 G O R F)) as ND.
    assert (forall k, In k (keys [(name, AllThen deps0 (get D name))]) ->
                      inherited k = None) as Fresh.
    { intros k [<-|[]]. now apply loaded_at_None in O. }
    assert (forall rs ds, hold_all rs loaded ds ->
                          hold_all rs (store loaded name (AllThen deps0 (get D name))) ds)
      as Mono.
    { intros rs ds H. induction H; constructor; auto. now apply loaded_at_mono. }
    apply in_app_iff in Hin as [Hin|[[= E1 E2 E3]|[]]].
    + destruct (IH _ _ _ Hin) as (E & I & Rq & H). auto.
    + subst. unfold required. rewrite R. repeat split; auto.
      now apply loaded_at_None in O.
Qed.



Section SettleFacts.

Variable setup_of : func -> obj -> outcome.
Variable race : string -> list failure -> nat.
Variable L : Loader.

Lemma settle_one_eq acc name p :
  settle_one setup_of race L acc (name, p) =
  {| states := states acc ++ [entry_state setup_of race L (states acc) name p];
     invoked := invoked acc ++ entry_invoked race (states acc) name p |}.
Proof.
  destruct p as [comp|deps def]; simpl.
  - now rewrite app_nil_r.
  - destruct (promise_all race name (map (handle_state (states acc)) deps));
      simpl; rewrite ?app_nil_r; reflexivity.
Qed.

Lemma settle_snoc loaded e :
  settle setup_of race L (loaded ++ [e])
  = settle_one setup_of race L (settle setup_of race L loaded) e.
Proof. unfold settle. now rewrite fold_left_app. Qed.

Lemma settle_length loaded :
  List.length (states (settle setup_of race L loaded)) = List.length loaded.
Proof.
  induction loaded as [|[n p] loaded IH] using rev_ind; [reflexivity|].
  rewrite settle_snoc, settle_one_eq. cbn [states].
  rewrite !length_app, IH. reflexivity.
Qed.

Lemma invoked_built loaded n :
  In n (map fst (invoked (settle setup_of race L loaded))) ->
  exists deps def, In (n, AllThen deps def) loaded.
Proof.
  induction loaded as [|[m p] loaded IH] using rev_ind; [intros []|].
  rewrite settle_snoc, settle_one_eq. cbn [invoked]. rewrite map_app, in_app_iff.
  intros [H|H].
  - destruct (IH H) as (deps & def & Hin). exists deps, def.
    apply in_app_iff. now left.
  - destruct p as [comp|deps def]; [destruct H|]. cbn [entry_invoked] in H.
    destruct (promise_all race m (map _ deps)); try destruct H as [<-|[]]; try destruct H.
    exists deps, def. apply in_app_iff. right. now left.
Qed.








End SettleFacts.

(** ** C1: at most one call of each setup function *)




(** ** C5: virtual components *)


Lemma seeds_invoke_nothing setup_of race L options :
  invoked (settle setup_of race L (seed options)) = [].
Proof.
  destruct (invoked (settle setup_of race L (seed options))) as [|[n ctx] rest] eqn:E;
    [reflexivity|].
  assert (In n (map fst (invoked (settle setup_of race L (seed options))))) as H
      by (rewrite E; now left).
  apply invoked_built in H as (deps & def & H).
  apply seed_resolved in H as (c & [=]).
Qed.






(** ** C10: a target that names nothing *)





(** ** Who waits for whom *)






(** ** Promise.all *)







(** ** What a context holds under a name *)




(** ** How a rejection travels *)

Section Propagation.

Variable setup_of : func -> obj -> outcome.
Variable race : string -> list failure -> nat.
Variable L : Loader.
Variable D : obj.
Variable loaded : table.
Hypothesis G : good D loaded.

Let s := settle setup_of race L loaded.







End Propagation.

(** ** C9: the caller's objects *)

Lemma read_alloc_old (h : Store.heap) o l o' :
  Store.read h l = Some o' -> Store.read (snd (Store.alloc h o)) l = Some o'.
Proof.
  unfold Store.read, Store.alloc. simpl. intros H.
  rewrite nth_error_app1; [assumption|]. apply nth_error_Some. congruence.
Qed.

Lemma read_alloc_new (h : Store.heap) o :
  Store.read (snd (Store.alloc h o)) (fst (Store.alloc h o)) = Some o.
Proof.
  unfold Store.read, Store.alloc. simpl.
  rewrite nth_error_app2, Nat.sub_diag; [reflexivity|lia].
Qed.

Lemma read_alloc_fresh (h : Store.heap) o :
  Store.read h (fst (Store.alloc h o)) = None.
Proof. unfold Store.read, Store.alloc. simpl. apply nth_error_None. lia. Qed.

Lemma read_write_other (h : Store.heap) l l' o :
  l <> l' -> Store.read (Store.write h l' o) l = Store.read h l.
Proof.
  unfold Store.read. revert l l'. induction h as [|x h IH]; intros l l' Ne.
  - reflexivity.
  - destruct l' as [|l']; destruct l as [|l]; simpl; try reflexivity; try lia.
    apply IH. lia.
Qed.

Lemma read_write_same (h : Store.heap) l o o' :
  Store.read h l = Some o' -> Store.read (Store.write h l o) l = Some o.
Proof.
  unfold Store.read. revert l. induction h as [|x h IH]; intros l.
  - destruct l; discriminate.
  - destruct l as [|l]; simpl; [reflexivity|apply IH].
Qed.

(** The stateful constructor computes what [loader] computes on the
    contents of the directory, and leaves every object that existed as it
    was: it writes only to its own copy. *)
Lemma store_loader_spec (h : Store.heap) (directory0 : Store.loc)
  (virtual : list string) (dir0 : obj) :
  Store.read h directory0 = Some dir0 ->
  let ref := List.length h in
  match loader dir0 virtual with
  | Throw e =>
      fst (Store.loader h directory0 virtual) = Throw e
      /\ (snd (Store.loader h directory0 virtual) = h
          \/ snd (Store.loader h directory0 virtual) = h ++ [dir0])
  | Normal L =>
      Store.loader h directory0 virtual
      = (Normal {| Store.directory := ref;
                   Store.virtuals := virtualComponents L;
                   Store.sorted := topoSorted L |},
         h ++ [componentDirectory L])
      /\ componentDirectory L = assign dir0 "graphviz" graphviz_def
  end.
Proof.
  intros R ref. rewrite loader_unfold. unfold Store.loader. rewrite R.
  destruct (negb (Nat.eqb (List.length (intersection (keys dir0) virtual)) 0));
    [split; [reflexivity|now left]|].
  pose proof (read_alloc_new h (clone dir0)) as New. unfold Store.alloc in New |- *.
  simpl in New. rewrite New. unfold clone.
  destruct (forEach (check_entry dir0 virtual) (visited dir0)) as [[]|e];
    [|split; [reflexivity|now right]].
  destruct (TopoSort.sort (build_graph dir0 virtual)) as [order|];
    [|split; [reflexivity|now right]].
  destruct (truthy (get dir0 "graphviz") || includes virtual "graphviz");
    [split; [reflexivity|now right]|].
  simpl. split; [|reflexivity]. f_equal.
  clear. induction h as [|x h IH]; simpl; [reflexivity|]. now rewrite IH.
Qed.

(** C9: whatever the outcome, constructing a loader leaves every object
    that existed before as it was, the caller's directory included; a
    constructed loader works on a copy of the directory at a fresh
    location, and the reserved component is added to that copy only (the
    caller's directory has nothing truthy under that name, and, unless it
    has a numeric [length], no entry of that name at all); and a call of a
    loader leaves every object that existed before it as it was, so the
    caller's options and the loader's own directory are the same after the
    call. *)
Theorem caller_objects_untouched (h : Store.heap) :
  (forall directory0 virtual l o,
      Store.read h l = Some o ->
      Store.read (snd (Store.loader h directory0 virtual)) l = Some o)
  /\ (forall directory0 virtual c dir0,
         Store.read h directory0 = Some dir0 ->
         fst (Store.loader h directory0 virtual) = Normal c ->
         Store.read h (Store.directory c) = None
         /\ Store.read (snd (Store.loader h directory0 virtual)) (Store.directory c)
            = Some (assign dir0 "graphviz" graphviz_def)
         /\ Store.read (snd (Store.loader h directory0 virtual)) directory0 = Some dir0
         /\ truthy (get dir0 "graphviz") = false
         /\ (array_like dir0 = None -> own dir0 "graphviz" = None))
  /\ (forall c target options l o,
         Store.read h l = Some o ->
         Store.read (snd (Store.run h c target options)) l = Some o).
Proof.
  split; [|split].
  - intros directory0 virtual l o R.
    destruct (Store.read h directory0) as [dir0|] eqn:R0.
    + pose proof (store_loader_spec h directory0 virtual dir0 R0) as S. simpl in S.
      destruct (loader dir0 virtual) as [L|e].
      * destruct S as [-> _]. simpl. now apply (read_alloc_old h (componentDirectory L)).
      * destruct S as [_ [-> | ->]]; [assumption|]. now apply (read_alloc_old h dir0).
    + unfold Store.loader. now rewrite R0.
  - intros directory0 virtual c dir0 R0 E.
    pose proof (store_loader_spec h directory0 virtual dir0 R0) as S. simpl in S.
    destruct (loader dir0 virtual) as [L|e] eqn:HL.
    + destruct S as [S ED]. rewrite S in E |- *. injection E as <-. simpl.
      split; [apply (read_alloc_fresh h [])|]. split; [|split; [|split]].
      * rewrite <- ED. apply (read_alloc_new h (componentDirectory L)).
      * now apply (read_alloc_old h (componentDirectory L)).
      * now apply loader_fields in HL as (_ & _ & _ & T & _).
      * intros Pl. now apply (loader_Normal _ _ _ Pl) in HL as (_ & _ & O & _).
    + destruct S as [S _]. congruence.
  - intros c target options l o R. unfold Store.run.
    assert (forall h0 opts,
               Store.read h0 l = Some o ->
               Store.read
                 (snd (let (ref, h1) := Store.alloc h0 (clone opts) in
                       match Store.read h1 ref, Store.read h1 (Store.directory c) with
                       | Some options1, Some dir =>
                           (match find (fun vComp => negb (exists_ (get options1 vComp)))
                                    (Store.virtuals c) with
                            | Some vComp => Some (Throw (MissingVirtualBinding vComp), [])
                            | None => load (S (List.length (Store.sorted c))) dir
                                        (seed options1) target
                            end, h1)
                       | _, _ => (Some (Throw (TypeError "componentDirectory"), []), h1)
                       end)) l = Some o) as Body.
    { intros h0 opts R'. pose proof (read_alloc_old h0 (clone opts) l o R') as Old.
      unfold Store.alloc in *. simpl in Old.
      destruct (Store.read (h0 ++ [clone opts]) (List.length h0));
        [destruct (Store.read (h0 ++ [clone opts]) (Store.directory c))|]; exact Old. }
    destruct options as [given|].
    + destruct (Store.read h given) as [opts|]; [now apply Body|assumption].
    + pose proof (read_alloc_old h [] l o R) as Old.
      pose proof (read_alloc_new h []) as New.
      unfold Store.alloc in *. simpl in Old, New |- *. rewrite New. now apply Body.
Qed.

(** The stateful call computes what [run] computes on the contents. *)
Lemma store_run_spec (h : Store.heap) (c : Store.closure) target given opts dir :
  Store.read h given = Some opts ->
  Store.read h (Store.directory c) = Some dir ->
  fst (Store.run h c target (Some given))
  = run {| componentDirectory := dir;
           virtualComponents := Store.virtuals c;
           topoSorted := Store.sorted c |} target opts.
Proof.
  intros Ro Rd. unfold Store.run. rewrite Ro.
  pose proof (read_alloc_new h (clone opts)) as New.
  pose proof (read_alloc_old h (clone opts) _ _ Rd) as Old.
  unfold Store.alloc in *. simpl in New, Old. rewrite New, Old. reflexivity.
Qed.

Lemma C9_witness :
  Store.read (snd (Store.loader [diamond 0 1 2 3] 0 [])) 0 = Some (diamond 0 1 2 3)
  /\ Store.read (snd (Store.loader [diamond 0 1 2 3] 0 [])) 1
     = Some (assign (diamond 0 1 2 3) "graphviz" graphviz_def).
Proof.
  destruct (caller_objects_untouched [diamond 0 1 2 3]) as (A & B & _).
  split.
  - apply A. reflexivity.
  - apply (B 0 [] {| Store.directory := 1; Store.virtuals := [];
                     Store.sorted := ["A"; "C"; "B"; "D"] |} (diamond 0 1 2 3)
             eq_refl eq_refl).
Defined.

(** * Further properties of the loader *)

(** ** The first check of the constructor *)

(** X1: construction fails with the name-collision assertion of line 182
    exactly when some key of the directory is also listed as a virtual
    component.  The assertion runs before every check on the entries, so
    whatever else is wrong with such a directory is not reported; and no
    later check raises it. *)
Theorem name_collision_reported_first (dir : obj) (virtual : list string) :
  (exists n, In n (keys dir) /\ In n virtual)
  <-> loader dir virtual = Throw VirtualNameCollision.
Proof.
  rewrite loader_unfold.
  destruct (Nat.eqb (List.length (intersection (keys dir) virtual)) 0) eqn:E; simpl.
  - apply Nat.eqb_eq in E. pose proof (proj1 (intersection_empty _ _) E) as Em.
    split.
    + intros (n & Hk & Hv). apply Em in Hk. apply includes_false in Hk. tauto.
    + intros H. exfalso.
      destruct (forEach (check_entry dir virtual) (visited dir)) as [[]|e] eqn:F.
      * destruct (TopoSort.sort (build_graph dir virtual)); [|discriminate].
        destruct (truthy (get dir "graphviz") || includes virtual "graphviz");
          discriminate.
      * injection H as ->.
        apply forEach_Throw in F as (entry & _ & F).
        apply check_entry_Throw in F as [(why & F)|[F|(dep & F & _)]]; discriminate.
  - split; [reflexivity|]. intros _.
    apply Nat.eqb_neq in E.
    destruct (intersection (keys dir) virtual) as [|n rest] eqn:I; [easy|].
    exists n. assert (In n (intersection (keys dir) virtual)) as H by (rewrite I; now left).
    unfold intersection in H. apply filter_In in H as [Hk Hv].
    split; [assumption|]. now apply includes_In.
Qed.

(** ** The message of validateComponent *)

(** X2: which of its four messages [validateComponent] (lines 21-43)
    raises.  The tests run in the order of the source and the first that
    fails decides: a definition that is not an object is reported as such
    whatever its members; an object without a callable [setup] is reported
    for that, whatever its [requires]; with a callable [setup], a truthy
    [requires] that is not an array, then an array with an entry that is not
    a string. *)
Theorem validateComponent_first_failing_test (def : value) (name : string) :
  (is_nullish def = false -> not_an_object def = true ->
   validateComponent def name = Throw (InvalidComponent name MustBeObject))
  /\ (is_nullish def = false -> not_an_object def = false ->
      setup_not_callable def = true ->
      validateComponent def name = Throw (InvalidComponent name MissingSetup))
  /\ (forall requires,
         not_an_object def = false -> setup_not_callable def = false ->
         prop def "requires" = Some requires -> truthy requires = true ->
         (forall items, requires <> VArr items) ->
         validateComponent def name = Throw (InvalidComponent name RequiresNotArray))
  /\ (forall items,
         not_an_object def = false -> setup_not_callable def = false ->
         prop def "requires" = Some (VArr items) ->
         forallb is_string items = false ->
         validateComponent def name = Throw (InvalidComponent name RequiresNotStrings)).
Proof.
  unfold not_an_object, setup_not_callable, validateComponent.
  split; [|split; [|split]].
  - intros N O. destruct def; try discriminate; reflexivity.
  - intros N O S. destruct def; try discriminate.
    + reflexivity.
    + simpl in S. simpl. rewrite S. reflexivity.
  - intros requires O S P T NA.
    destruct def; try discriminate; simpl in *.
    rewrite S. simpl. injection P as <-.
    rewrite T. destruct (get props "requires"); try reflexivity.
    now destruct (NA items).
  - intros items O S P F.
    destruct def; try discriminate; simpl in *.
    rewrite S. simpl. injection P as ->.
    simpl. rewrite F. reflexivity.
Qed.

Lemma validateComponent_first_failing_test_witness :
  validateComponent (VNum 5) "a" = Throw (InvalidComponent "a" MustBeObject)
  /\ validateComponent (VObj [("requires", VNum 5)]) "a"
     = Throw (InvalidComponent "a" MissingSetup)
  /\ validateComponent (VObj [("setup", VFun (UserFn 0)); ("requires", VNum 5)]) "a"
     = Throw (InvalidComponent "a" RequiresNotArray)
  /\ validateComponent
       (VObj [("setup", VFun (UserFn 0)); ("requires", VArr [VStr "b"; VNum 5])]) "a"
     = Throw (InvalidComponent "a" RequiresNotStrings).
Proof.
  split; [|split; [|split]].
  - apply (validateComponent_first_failing_test (VNum 5) "a"); reflexivity.
  - apply (validateComponent_first_failing_test (VObj [("requires", VNum 5)]) "a");
      reflexivity.
  - apply (proj1 (proj2 (proj2 (validateComponent_first_failing_test
             (VObj [("setup", VFun (UserFn 0)); ("requires", VNum 5)]) "a")))
             (VNum 5)); try reflexivity. discriminate.
  - apply (proj2 (proj2 (proj2 (validateComponent_first_failing_test
             (VObj [("setup", VFun (UserFn 0)); ("requires", VArr [VStr "b"; VNum 5])])
             "a"))) [VStr "b"; VNum 5]); reflexivity.
Defined.

(** ** The order of the checks on the entries *)

(** X3: which entry is reported (lines 186-214).  The entries are checked
    in the order in which the walk of line 186 visits them (every entry in
    enumeration order, for a directory without a numeric [length]; the
    members [0] to [length - 1] otherwise), each one entirely, its shape
    before its references: when no name collides with a virtual component,
    construction throws what the first visited entry that fails its check
    throws, whatever is wrong with the entries after it; and an entry whose
    shape is rejected is reported for that, whatever it requires. *)
Theorem first_failing_entry_is_reported
  (dir : obj) (virtual : list string)
  (pre : obj) (entry : string * value) (post : obj) (e : error) :
  visited dir = pre ++ entry :: post ->
  (forall n, In n (keys dir) -> ~ In n virtual) ->
  (forall x, In x pre -> check_entry dir virtual x = Normal tt) ->
  check_entry dir virtual entry = Throw e ->
  loader dir virtual = Throw e
  /\ (forall e', validateComponent (snd entry) (fst entry) = Throw e' -> e = e').
Proof.
  intros E NC Pre Fail. split.
  - rewrite loader_unfold.
    replace (Nat.eqb (List.length (intersection (keys dir) virtual)) 0) with true.
    + simpl. rewrite E. now rewrite (forEach_first _ _ _ _ _ Pre Fail).
    + symmetry. apply Nat.eqb_eq, intersection_empty.
      intros x Hx. apply includes_false. auto.
  - intros e' V. destruct entry as [name def]. simpl in *.
    unfold check_entry, bind in Fail. rewrite V in Fail. congruence.
Qed.

Lemma first_failing_entry_is_reported_witness :
  loader [("a", component 0 []); ("b", component 1 ["missing"]); ("c", VNum 5)] []
  = Throw (UndefinedComponent "missing").
Proof.
  apply (first_failing_entry_is_reported
           [("a", component 0 []); ("b", component 1 ["missing"]); ("c", VNum 5)] []
           [("a", component 0 [])] ("b", component 1 ["missing"]) [("c", VNum 5)]).
  - reflexivity.
  - intros n _ [].
  - intros x [<-|[]]. vm_compute. reflexivity.
  - vm_compute. reflexivity.
Defined.

(** ** renderGraph *)

Lemma requires_of_defined def :
  is_nullish def = false -> requires_of def = Some (required def).
Proof.
  intros N. unfold required, requires_of.
  destruct def; try discriminate; reflexivity.
Qed.

Lemma requires_of_nullish def :
  is_nullish def = true -> requires_of def = None.
Proof. destruct def; try discriminate; reflexivity. Qed.

Lemma render_component_defined D c :
  is_nullish (get D c) = false ->
  render_component D c = Normal (component_lines D c).
Proof.
  intros N. unfold render_component, requires_or_throw.
  rewrite (requires_of_defined _ N). reflexivity.
Qed.

Lemma render_component_missing D c :
  is_nullish (get D c) = true ->
  render_component D c = Throw (TypeError "requires").
Proof.
  intros N. unfold render_component, requires_or_throw.
  rewrite (requires_of_nullish _ N). reflexivity.
Qed.

Lemma render_components_outcome D sorted :
  match find (fun c => is_nullish (get D c)) sorted with
  | Some _ => render_components D sorted = Throw (TypeError "requires")
  | None => render_components D sorted = Normal (flat_map (component_lines D) sorted)
  end.
Proof.
  induction sorted as [|c rest IH]; [reflexivity|].
  cbn [find render_components flat_map].
  destruct (is_nullish (get D c)) eqn:N.
  - now rewrite (render_component_missing _ _ N).
  - rewrite (render_component_defined _ _ N).
    destruct (find _ rest); rewrite IH; reflexivity.
Qed.

(** X4: [renderGraph] (lines 49-105) reads [requires] of the definition it
    finds under each listed name (lines 61 and 67) without testing that
    there is one.  Given definitions whose [requires] is absent, falsy or an
    array of strings, it throws the runtime's TypeError exactly when some
    listed name has no definition in the directory (or a null one), and
    returns a text otherwise. *)
Theorem renderGraph_throws_on_a_missing_definition
  (componentDirectory : obj) (sortedComponents : list string) :
  (forall c, In c sortedComponents ->
             requires_malformed (get componentDirectory c) = false) ->
  ((exists c, In c sortedComponents /\ is_nullish (get componentDirectory c) = true)
   <-> renderGraph componentDirectory sortedComponents = Throw (TypeError "requires"))
  /\ ((forall c, In c sortedComponents -> is_nullish (get componentDirectory c) = false)
      <-> exists dot, renderGraph componentDirectory sortedComponents = Normal dot).
Proof.
  intros _. unfold renderGraph.
  pose proof (render_components_outcome componentDirectory sortedComponents) as R.
  destruct (find _ sortedComponents) as [c|] eqn:F.
  - rewrite R. simpl. apply find_some in F as [Hc Nc]. split.
    + split; [reflexivity|]. intros _. now exists c.
    + split.
      * intros H. rewrite (H c Hc) in Nc. discriminate.
      * intros (dot & H). discriminate.
  - rewrite R. simpl. split.
    + split; [|discriminate].
      intros (c & Hc & Nc). now rewrite (find_none _ _ F c Hc) in Nc.
    + split; [eauto|]. intros _ c Hc. exact (find_none _ _ F c Hc).
Qed.

Lemma renderGraph_throws_on_a_missing_definition_witness :
  renderGraph [("app", component 0 ["config"])] ["app"; "config"]
  = Throw (TypeError "requires")
  /\ exists dot, renderGraph [("app", component 0 [])] ["app"] = Normal dot.
Proof.
  split.
  - apply (renderGraph_throws_on_a_missing_definition
             [("app", component 0 ["config"])] ["app"; "config"]).
    + intros c [<-|[<-|[]]]; reflexivity.
    + exists "config". split; [right; now left|reflexivity].
  - apply (renderGraph_throws_on_a_missing_definition [("app", component 0 [])] ["app"]).
    + intros c [<-|[]]; reflexivity.
    + intros c [<-|[]]; reflexivity.
Defined.

Lemma flat_map_lines {A B : Type} (f : A -> list B) l :
  List.length (flat_map f l) = list_sum (map (fun a => List.length (f a)) l).
Proof.
  induction l as [|a l IH]; simpl; [reflexivity|].
  now rewrite length_app, IH.
Qed.

(** X5: the text [renderGraph] returns.  When every listed name has a
    definition (whose [requires] is absent, falsy or an array of strings),
    the text is, joined by newlines: the four header lines, then for each
    listed component, in the order given, its own line followed by one line
    for each name it requires, in the order of its [requires], and the
    closing brace.  So it has five lines more than there are listed
    components and required names, and for an empty list it is the header
    and the brace. *)
Theorem renderGraph_lists_components_and_edges
  (componentDirectory : obj) (sortedComponents : list string) :
  (forall c, In c sortedComponents ->
             requires_malformed (get componentDirectory c) = false) ->
  (forall c, In c sortedComponents -> is_nullish (get componentDirectory c) = false) ->
  exists body,
    renderGraph componentDirectory sortedComponents
    = Normal (join newline (graph_header ++ body ++ ["}"]))
    /\ body = flat_map (component_lines componentDirectory) sortedComponents
    /\ (forall line,
           In line body <->
           exists c, In c sortedComponents
                     /\ (line = node_line c
                         \/ exists dep,
                              In dep (required (get componentDirectory c))
                              /\ line = edge_line c dep))
    /\ List.length (graph_header ++ body ++ ["}"])
       = 5 + List.length sortedComponents
         + list_sum (map (fun c => List.length (required (get componentDirectory c)))
                         sortedComponents).
Proof.
  intros _ Def. eexists. split; [|split; [reflexivity|split]].
  - unfold renderGraph.
    pose proof (render_components_outcome componentDirectory sortedComponents) as R.
    destruct (find _ sortedComponents) as [c|] eqn:F.
    + apply find_some in F as [Hc Nc]. rewrite (Def c Hc) in Nc. discriminate.
    + rewrite R. reflexivity.
  - intros line. rewrite in_flat_map. unfold component_lines. split.
    + intros (c & Hc & [<-|Hl]); exists c; split; auto.
      apply in_map_iff in Hl as (dep & <- & Hd). right. eauto.
    + intros (c & Hc & [->|(dep & Hd & ->)]); exists c; split; auto.
      * now left.
      * right. now apply in_map.
  - rewrite !length_app, flat_map_lines. cbn [graph_header List.length].
    unfold component_lines. cbn [List.length]. clear Def.
    assert (list_sum
              (map (fun a => S (List.length
                                  (map (edge_line a)
                                       (required (get componentDirectory a)))))
                   sortedComponents)
            = List.length sortedComponents
              + list_sum (map (fun c => List.length (required (get componentDirectory c)))
                              sortedComponents)) as E.
    { induction sortedComponents as [|c rest IH]; [reflexivity|].
      simpl. rewrite length_map. simpl in IH. lia. }
    lia.
Qed.

Lemma renderGraph_lists_components_and_edges_witness :
  exists body,
    renderGraph [("A", component 0 ["D"]); ("D", component 1 [])] ["D"; "A"]
    = Normal (join newline (graph_header ++ body ++ ["}"]))
    /\ body = [node_line "D"; node_line "A"; edge_line "A" "D"].
Proof.
  destruct (renderGraph_lists_components_and_edges
              [("A", component 0 ["D"]); ("D", component 1 [])] ["D"; "A"])
    as (body & R & B & _).
  - intros c [<-|[<-|[]]]; reflexivity.
  - intros c [<-|[<-|[]]]; reflexivity.
  - exists body. split; [exact R|]. rewrite B. reflexivity.
Defined.

(** ** The graphviz component *)

Lemma bound_find virtual options :
  bound virtual options ->
  find (fun vComp => negb (exists_ (get options vComp))) virtual = None.
Proof.
  intros B. destruct (find _ virtual) as [w|] eqn:F; [|reflexivity].
  apply find_some in F as [Hw Nw]. unfold exists_ in Nw.
  rewrite negb_involutive, (B w Hw) in Nw. discriminate.
Qed.

Lemma run_bound dir virtual L target options :
  loader dir virtual = Normal L ->
  bound virtual options ->
  run L target options
  = load (S (List.length (topoSorted L))) (componentDirectory L) (seed options) target.
Proof.
  intros HL B. rewrite run_unfold.
  pose proof (loader_fields _ _ _ HL) as (_ & _ & _ & _ & _ & _ & EV).
  now rewrite EV, (bound_find _ _ B).
Qed.

Lemma get_graphviz dir virtual L :
  loader dir virtual = Normal L ->
  get (componentDirectory L) "graphviz" = graphviz_def.
Proof.
  intros HL.
  pose proof (loader_fields _ _ _ HL) as (_ & _ & _ & _ & _ & ED & _).
  rewrite ED. unfold get. rewrite own_assign. now rewrite String.eqb_refl.
Qed.

Lemma seed_length options :
  List.length (seed options) = List.length (visited options).
Proof. rewrite seed_map. apply length_map. Qed.

(** X6: loading [graphviz] (lines 252-256).  On a constructed loader, in a
    call that binds the virtual components and does not supply [graphviz]
    in [options], [load('graphviz')] creates one promise, after those that
    were seeded from the options; the only setup function invoked is the
    loader's own, with the empty context; and the promise is fulfilled with
    the text [renderGraph(componentDirectory, topoSorted)] returns, or
    rejected with what it throws. *)
Theorem graphviz_resolves_to_the_rendering
  (setup_of : func -> obj -> outcome) (race : string -> list failure -> nat)
  (dir : obj) (virtual : list string) (L : Loader) (options : obj) :
  loader dir virtual = Normal L ->
  bound virtual options ->
  ~ In "graphviz" (keys options) ->
  exists loaded,
    run L "graphviz" options
    = Some (Normal (HPromise (List.length (seed options))), loaded)
    /\ loaded = seed options ++ [("graphviz", AllThen [] graphviz_def)]
    /\ invoked (settle setup_of race L loaded) = [("graphviz", [])]
    /\ handle_state (states (settle setup_of race L loaded))
         (HPromise (List.length (seed options)))
       = match renderGraph (componentDirectory L) (topoSorted L) with
         | Normal dot => Fulfilled (VStr dot)
         | Throw e => Rejected (Internal e)
         end.
Proof.
  intros HL B NG. eexists. split; [|split; [reflexivity|]].
  - rewrite (run_bound _ _ _ _ _ HL B), load_unfold.
    assert (loaded_at (seed options) "graphviz" = None) as E.
    { apply loaded_at_None. rewrite seed_keys. split; [|reflexivity].
      intros K. apply visited_key in K as [K|K]; [tauto|discriminate]. }
    rewrite E, (get_graphviz _ _ _ HL). cbn [map_load].
    replace (requires_of graphviz_def) with (Some (@nil string)) by reflexivity.
    cbn [map_load]. reflexivity.
  - rewrite settle_snoc, settle_one_eq, seeds_invoke_nothing.
    cbn [states invoked entry_invoked entry_state map app].
    replace (promise_all race "graphviz" []) with (AllFulfilled []) by reflexivity.
    replace (required graphviz_def) with (@nil string) by reflexivity.
    split; [reflexivity|].
    cbn [handle_state].
    rewrite app_nth2; rewrite settle_length; [|lia].
    rewrite Nat.sub_diag. cbn [nth].
    unfold call_setup. cbn [context combine fold_left].
    replace (prop graphviz_def "setup") with (Some (VFun GraphvizSetup)) by reflexivity.
    destruct (renderGraph (componentDirectory L) (topoSorted L)); reflexivity.
Qed.

Lemma graphviz_resolves_to_the_rendering_witness :
  exists L loaded,
    loader (diamond 0 1 2 3) [] = Normal L
    /\ run L "graphviz" [] = Some (Normal (HPromise 0), loaded)
    /\ invoked (settle (fun _ ctx => Returns (VObj ctx)) (fun _ _ => 0) L loaded)
       = [("graphviz", [])].
Proof.
  eexists. 
  destruct (graphviz_resolves_to_the_rendering
              (fun _ ctx => Returns (VObj ctx)) (fun _ _ => 0) (diamond 0 1 2 3) []
              {| componentDirectory := diamond 0 1 2 3 ++ [("graphviz", graphviz_def)];
                 virtualComponents := [];
                 topoSorted := ["A"; "C"; "B"; "D"] |} [])
    as (loaded & R & _ & I & _).
  - vm_compute. reflexivity.
  - intros v [].
  - intros [].
  - exists loaded. split; [vm_compute; reflexivity|]. split; [exact R|exact I].
Defined.

(** The sort lists nothing but the nodes of its graph. *)
Lemma sort_loop_incl ts fuel :
  forall pending done order,
    TopoSort.sort_loop fuel ts pending done = Some order ->
    forall n, In n order -> In n pending \/ In n done.
Proof.
  induction fuel as [|fuel IH]; intros pending done order H n Hn.
  - destruct pending; simpl in H; [|discriminate]. injection H as <-. now right.
  - destruct pending as [|p pending].
    + simpl in H. injection H as <-. now right.
    + cbn [TopoSort.sort_loop] in H.
      destruct (find (TopoSort.ready ts done) (p :: pending)) as [n0|] eqn:F;
        [|discriminate].
      apply find_some in F as [F _].
      destruct (IH _ _ _ H n Hn) as [H1|[<-|H1]]; auto.
      apply in_remove in H1 as [H1 _]. now left.
Qed.

Lemma sort_incl ts order n :
  TopoSort.sort ts = Some order -> In n order -> In n (TopoSort.nodes ts).
Proof.
  intros H Hn. destruct (sort_loop_incl _ _ _ _ _ H n Hn) as [H1|[]]. exact H1.
Qed.

Lemma build_graph_nodes_iff dir virtual n :
  array_like dir = None ->
  In n (TopoSort.nodes (build_graph dir virtual)) <->
  In n (keys dir) \/ In n virtual
  \/ exists a def, In (a, def) dir /\ In n (required def).
Proof.
  intros Pl. unfold TopoSort.nodes, build_graph. rewrite (visited_plain _ Pl).
  rewrite nodup_In, fold_add_virtual, fold_add_entry, in_flat_map. simpl. split.
  - intros (e & He & Hn). apply in_app_or in He as [He|He].
    + apply in_map_iff in He as ([a def] & <- & He). simpl in Hn.
      destruct Hn as [<-|Hn].
      * left. apply in_map_iff. now exists (a, def).
      * right. right. eauto.
    + apply in_map_iff in He as (v & <- & He). simpl in Hn.
      destruct Hn as [<-|[]]. auto.
  - intros [H|[H|(a & def & H & Hn)]].
    + apply in_map_iff in H as ([a def] & <- & H).
      exists (a, required def). split; [|now left].
      apply in_or_app. left. apply in_map_iff. now exists (a, def).
    + exists (n, []). split; [|now left].
      apply in_or_app. right. apply in_map_iff. now exists n.
    + exists (a, required def). split; [|now right].
      apply in_or_app. left. apply in_map_iff. now exists (a, def).
Qed.

(** Which names a constructed loader has no definition for. *)
Lemma loader_defines dir virtual L c :
  loader dir virtual = Normal L ->
  array_like dir = None ->
  is_nullish (get (componentDirectory L) c) = true <->
  ~ In c (keys dir) /\ c <> "graphviz" /\ ~ In c object_prototype.
Proof.
  intros HL Pl.
  pose proof (loader_Normal _ _ _ Pl HL) as (WF & _ & O & _ & ED & _).
  rewrite ED, own_snoc_graphviz.
  destruct (own dir c) as [d|] eqn:Oc.
  - assert (In c (keys dir)) as K by (eapply own_Some_key; eauto).
    apply own_In in Oc. apply (wf_valid _ _ WF) in Oc.
    apply validateComponent_Normal in Oc as [N _]. rewrite N. split; [discriminate|tauto].
  - apply own_None_iff in Oc.
    destruct (String.eqb "graphviz" c) eqn:E.
    + apply String.eqb_eq in E. subst c. split; [discriminate|tauto].
    + apply String.eqb_neq in E. unfold get. cbn [own].
      destruct (inherited c) as [v|] eqn:I.
      * assert (In c object_prototype) as P by (apply inherited_In; congruence).
        apply inherited_truthy in I. split; [|tauto].
        destruct v; try discriminate; intros; discriminate.
      * assert (~ In c object_prototype) as P by (rewrite <- inherited_In; tauto).
        split; [intros _|reflexivity]. repeat split; auto.
Qed.

(** X7: when the rendering fails.  The sorted list that a loader
    constructed from a directory of component definitions (one without a
    numeric [length], so that every entry was validated) keeps holds the
    virtual components beside the directory's names (they are added to the
    sort at lines 226-230, and the sort of [TopoSort] lists every name added
    to it), and the directory has no entry for a virtual component; so the
    rendering of X6 throws the TypeError of X4 exactly when the loader has a
    virtual component (other than one named like a member every object
    inherits), and returns a text exactly when it has none. *)
Theorem graphviz_fails_with_virtual_components
  (dir : obj) (virtual : list string) (L : Loader) :
  loader dir virtual = Normal L ->
  array_like dir = None ->
  ((exists vComp, In vComp virtual /\ ~ In vComp object_prototype)
   <-> renderGraph (componentDirectory L) (topoSorted L) = Throw (TypeError "requires"))
  /\ ((forall vComp, In vComp virtual -> In vComp object_prototype)
      <-> exists dot, renderGraph (componentDirectory L) (topoSorted L) = Normal dot).
Proof.
  intros HL Pl.
  pose proof (loader_Normal _ _ _ Pl HL) as (WF & Srt & O & NV & ED & _).
  pose proof (tsort_sort_Some _ _ Srt) as (_ & _ & All).
  assert (forall c, In c (topoSorted L) ->
                    requires_malformed (get (componentDirectory L) c) = false) as Shape.
  { intros c _. rewrite ED, own_snoc_graphviz.
    destruct (own dir c) as [d|] eqn:Oc.
    - apply own_In in Oc. apply (wf_valid _ _ WF) in Oc.
      apply validateComponent_Normal in Oc as [_ M]. unfold malformed in M.
      apply orb_false_iff in M as [_ M]. exact M.
    - destruct (String.eqb "graphviz" c); [reflexivity|].
      unfold get. cbn [own]. destruct (inherited c) as [v|] eqn:I; [|reflexivity].
      unfold inherited in I. destruct (String.eqb c "__proto__").
      + injection I as <-. reflexivity.
      + destruct (includes object_prototype c); [|discriminate].
        injection I as <-. reflexivity. }
  assert ((exists c, In c (topoSorted L)
                     /\ is_nullish (get (componentDirectory L) c) = true)
          <-> exists vComp, In vComp virtual /\ ~ In vComp object_prototype) as Miss.
  { split.
    - intros (c & Hc & N). apply (loader_defines _ _ _ c HL Pl) in N as (NK & NG & NP).
      apply (sort_incl _ _ _ Srt), (build_graph_nodes_iff _ _ _ Pl) in Hc
        as [Hc|[Hc|(a & def & Ha & Hc)]]; [tauto|eauto|].
      destruct (wf_closed _ _ WF _ _ _ Ha Hc) as [H|[H|H]]; [tauto|eauto|tauto].
    - intros (v & Hv & NP). exists v. split.
      + apply All, (build_graph_nodes_iff _ _ _ Pl). auto.
      + apply (loader_defines _ _ _ v HL Pl). split; [|split; [|assumption]].
        * intros K. apply (wf_disjoint _ _ WF) in K. apply includes_false in K. tauto.
        * intros ->. apply includes_false in NV. tauto. }
  pose proof (render_components_outcome (componentDirectory L) (topoSorted L)) as R.
  unfold renderGraph.
  destruct (find _ (topoSorted L)) as [c|] eqn:F.
  - rewrite R. simpl. apply find_some in F as [Hc Nc].
    assert (exists vComp, In vComp virtual /\ ~ In vComp object_prototype) as (v & Hv & NP)
        by (apply Miss; eauto).
    split.
    + split; [reflexivity|eauto].
    + split; [intros H; now apply H in Hv|intros (dot & H); discriminate].
  - rewrite R. simpl. split.
    + split; [|discriminate]. intros H. apply Miss in H as (c & Hc & Nc).
      now rewrite (find_none _ _ F c Hc) in Nc.
    + split; [eauto|]. intros _ v Hv.
      destruct (in_dec string_dec v object_prototype) as [P|P]; [assumption|].
      exfalso. assert (exists c, In c (topoSorted L)
                     /\ is_nullish (get (componentDirectory L) c) = true) as (c & Hc & Nc)
        by (apply Miss; eauto).
      now rewrite (find_none _ _ F c Hc) in Nc.
Qed.

Lemma graphviz_fails_with_virtual_components_witness :
  exists L,
    loader [("app", component 0 ["config"])] ["config"] = Normal L
    /\ renderGraph (componentDirectory L) (topoSorted L) = Throw (TypeError "requires").
Proof.
  eexists. split; [vm_compute; reflexivity|].
  apply (graphviz_fails_with_virtual_components
           [("app", component 0 ["config"])] ["config"]).
  - vm_compute. reflexivity.
  - reflexivity.
  - exists "config". split; [now left|].
    unfold object_prototype. intros H. repeat (destruct H as [H|H]; [discriminate|]).
    destruct H.
Defined.

(** ** What a call constructs *)





(** ** The context of a setup function *)





Section CallFacts.

Variable setup_of : func -> obj -> outcome.
Variable race : string -> list failure -> nat.
Variable L : Loader.
Variable loaded : table.
Hypothesis G : good (componentDirectory L) loaded.

Let s := settle setup_of race L loaded.





End CallFacts.







(** ** The targets a call accepts *)


Section KnownTargets.

Variable dir : obj.
Variable virtual : list string.
Variable L : Loader.
Hypothesis HL : loader dir virtual = Normal L.
Hypothesis Pl : array_like dir = None.






End KnownTargets.



(** X13: names every object inherits.  [loaded] is a plain object, so the
    test of line 299 finds the inherited member under a name such as
    [toString] or [constructor].  In a call on a constructed loader no
    promise is ever built for such a name and no setup function is invoked
    for it, even when the directory defines a component of that name; and
    unless [options] supplies the name, [load] of it returns the inherited
    member itself and leaves the table as it was seeded. *)
Theorem inherited_names_are_never_constructed
  (setup_of : func -> obj -> outcome) (race : string -> list failure -> nat)
  (dir : obj) (virtual : list string) (L : Loader) (target : string)
  (options : obj) (r : completion handle * table) (name : string) :
  loader dir virtual = Normal L ->
  array_like dir = None ->
  NoDup (keys options) ->
  run L target options = Some r ->
  In name object_prototype ->
  (forall deps def, ~ In (name, AllThen deps def) (snd r))
  /\ ~ In name (map fst (invoked (settle setup_of race L (snd r))))
  /\ (bound virtual options -> ~ In name (keys options) ->
      exists member,
        inherited name = Some member
        /\ run L name options = Some (Normal (HValue member), seed options)).
Proof.
  intros HL Pl ND Run P.
  destruct (run_completes _ _ _ target options HL Pl ND) as (r' & Run' & G).
  rewrite Run in Run'. injection Run' as <-.
  assert (forall deps def, ~ In (name, AllThen deps def) (snd r)) as NB.
  { intros deps def Hin. destruct (good_entries _ _ G _ _ _ Hin) as (_ & I & _).
    apply inherited_In in P. tauto. }
  split; [exact NB|]. split.
  - intros Hin. apply invoked_built in Hin as (deps & def & Hin). now apply NB in Hin.
  - intros B NK.
    assert (starts_with_digit name = false) as D.
    { unfold object_prototype in P.
      repeat (destruct P as [<-|P]; [reflexivity|]). destruct P. }
    apply inherited_In in P.
    destruct (inherited name) as [member|] eqn:I; [|tauto].
    exists member. split; [reflexivity|].
    rewrite (run_bound _ _ _ _ _ HL B). apply load_memoized.
    unfold loaded_at.
    replace (latest (seed options) name) with (@None nat); [now rewrite I|].
    symmetry. apply latest_from_None. rewrite seed_keys. intros K.
    apply visited_key in K as [K|K]; [tauto|congruence].
Qed.

Lemma inherited_names_are_never_constructed_witness :
  exists L,
    loader [("toString", component 0 [])] [] = Normal L
    /\ run L "toString" [] = Some (Normal (HValue (VFun (NativeFn "toString"))), [])
    /\ ~ In "toString"
         (map fst (invoked (settle (fun _ ctx => Returns (VObj ctx)) (fun _ _ => 0) L
                              (snd (Normal (HValue (VFun (NativeFn "toString"))),
                                    @nil (string * promise)))))).
Proof.
  eexists. split; [vm_compute; reflexivity|]. split; [vm_compute; reflexivity|].
  match goal with
  | |- ~ In _ (map fst (invoked (settle ?f ?rc ?L (snd ?r)))) =>
      apply (inherited_names_are_never_constructed
               f rc [("toString", component 0 [])] [] L "toString" [] r "toString")
  end.
  - vm_compute. reflexivity.
  - reflexivity.
  - constructor.
  - vm_compute. reflexivity.
  - vm_compute. auto 10.
Defined.

(** ** The loader's own copy of the directory *)

(** X14: the copy of line 183 cuts the loader off from its caller.  Once
    the constructor has returned, whatever the caller assigns to its own
    directory object (adding, removing or replacing entries) changes
    nothing for the returned function: a call reads the loader's copy and
    returns what it would have returned.  (The copy is shallow: a
    definition object is shared with the caller, and changing one in place
    is outside this statement.) *)
Theorem later_changes_do_not_reach_the_loader
  (h h1 : Store.heap) (directory0 : Store.loc) (virtual : list string)
  (c : Store.closure) (dir0 changed : obj)
  (target : string) (given : Store.loc) (opts : obj) :
  Store.read h directory0 = Some dir0 ->
  Store.loader h directory0 virtual = (Normal c, h1) ->
  Store.read h1 given = Some opts ->
  given <> directory0 ->
  Store.read (Store.write h1 directory0 changed) (Store.directory c)
  = Some (assign dir0 "graphviz" graphviz_def)
  /\ fst (Store.run (Store.write h1 directory0 changed) c target (Some given))
     = fst (Store.run h1 c target (Some given)).
Proof.
  intros R0 Ld Rg Ne.
  pose proof (store_loader_spec h directory0 virtual dir0 R0) as S.
  destruct (loader dir0 virtual) as [L|e] eqn:E.
  - destruct S as [S EL]. rewrite S in Ld. injection Ld as <- <-. cbn [Store.directory].
    assert (List.length h <> directory0) as Fresh.
    { intros <-. unfold Store.read in R0.
      assert (nth_error h (List.length h) = None) as N by (apply nth_error_None; lia).
      congruence. }
    assert (Store.read (h ++ [componentDirectory L]) (List.length h)
            = Some (componentDirectory L)) as Rd.
    { unfold Store.read. rewrite nth_error_app2, Nat.sub_diag; [reflexivity|lia]. }
    assert (Store.read (Store.write (h ++ [componentDirectory L]) directory0 changed)
              (List.length h) = Some (componentDirectory L)) as Rd'
        by (rewrite read_write_other; assumption).
    split; [now rewrite Rd', EL|].
    rewrite (store_run_spec _ _ target given opts (componentDirectory L)); auto.
    + rewrite (store_run_spec _ _ target given opts (componentDirectory L)); auto.
    + rewrite read_write_other; assumption.
  - destruct S as [S _]. rewrite Ld in S. discriminate.
Qed.

Lemma later_changes_do_not_reach_the_loader_witness :
  fst (Store.run (Store.write [diamond 0 1 2 3; [];
                               assign (diamond 0 1 2 3) "graphviz" graphviz_def] 0 [])
         {| Store.directory := 2; Store.virtuals := [];
            Store.sorted := ["A"; "C"; "B"; "D"] |} "A" (Some 1))
  = fst (Store.run [diamond 0 1 2 3; [];
                    assign (diamond 0 1 2 3) "graphviz" graphviz_def]
           {| Store.directory := 2; Store.virtuals := [];
              Store.sorted := ["A"; "C"; "B"; "D"] |} "A" (Some 1)).
Proof.
  apply (later_changes_do_not_reach_the_loader
           [diamond 0 1 2 3; []] _ 0 [] _ (diamond 0 1 2 3) [] "A" 1 []).
  - reflexivity.
  - vm_compute. reflexivity.
  - reflexivity.
  - discriminate.
Defined.

(** * Supplied values and failures

    The two properties of the specification that rest on the facts about
    calls established above. *)



(** ** C6: options pre-empt construction *)




(** ** C8: failures propagate, and only to dependents *)



